(** * CldrStForum: the in-memory forum indices and the thread assembly

    A shallow embedding of tools/cldr-apps/WebContent/js/CldrStForum.js.

    JavaScript post objects are shared: the same object is stored in the
    input array, in [postHash] and in the per-thread arrays of [threadHash],
    and [addThreadIds] mutates it in place.  We therefore model the objects
    in a heap [gmap loc Post]; arrays and indices hold locations.

    A computation that throws or does not terminate yields [None].  The
    [while] loop of [getOldestPostInThread] is run with an explicit amount
    of fuel; running out of fuel is reported as [None]. *)

From stdpp Require Import base gmap strings list pretty.
From Stdlib Require Import ZArith Sorting.Sorted.

Open Scope Z_scope.

(** ** Data model *)

(** Object identity of a JavaScript object. *)
Abbreviation loc := positive.

(** A forum post as delivered by the server ([threadId] is [undefined]
    until [addThreadIds] attaches it). *)
Record Post := mkPost {
  id : Z;
  parent : Z;
  locale : string;
  subject : option string;
  status : string;
  poster : Z;
  threadId : option string
}.

Definition set_threadId (t : string) (p : Post) : Post :=
  mkPost (id p) (parent p) (locale p) (subject p) (status p) (poster p) (Some t).

(** The module-level variables of the IIFE, together with the object heap. *)
Record ForumState := mkState {
  heap : gmap loc Post;
  forumLocale : option string;
  forumUpdateTime : option Z;
  postHash : gmap Z loc;
  threadHash : gmap string (list loc)
}.

(** A JavaScript property key built from [post.threadId]:
    [undefined] becomes the key ["undefined"]. *)
Definition tid_key (t : option string) : string :=
  match t with Some s => s | None => "undefined" end.

(** ** getOldestPostInThread *)

(** One test of the loop condition
    [post.parent >= 0 && postHash[post.parent]]: the next post, if any. *)
Definition next_parent (h : gmap loc Post) (ph : gmap Z loc) (l : loc)
  : option loc :=
  match h !! l with
  | Some p => if bool_decide (0 <= parent p) then ph !! parent p else None
  | None => None
  end.

(** [while (post.parent >= 0 && postHash[post.parent])
       post = postHash[post.parent];
     return post;] *)
Fixpoint getOldestPostInThread (fuel : nat) (h : gmap loc Post)
    (ph : gmap Z loc) (l : loc) : option loc :=
  match fuel with
  | O => None
  | S f =>
      match next_parent h ph l with
      | Some l' => getOldestPostInThread f h ph l'
      | None => Some l
      end
  end.

(** ** updateForumData and its three passes *)

(** [posts.forEach(post => { postHash[post.id] = post; })] *)
Fixpoint updatePostHash (h : gmap loc Post) (posts : list loc)
    (ph : gmap Z loc) : option (gmap Z loc) :=
  match posts with
  | [] => Some ph
  | l :: ls =>
      p ← h !! l;
      updatePostHash h ls (<[id p := l]> ph)
  end.

(** The thread id built from the oldest post: [locale + "|" + id]. *)
Definition makeThreadId (firstPost : Post) : string :=
  locale firstPost +:+ "|" +:+ pretty (id firstPost).

(** [posts.forEach(post => {
       const firstPost = getOldestPostInThread(post);
       post.threadId = firstPost.locale + "|" + firstPost.id; })] *)
Fixpoint addThreadIds (fuel : nat) (ph : gmap Z loc) (posts : list loc)
    (h : gmap loc Post) : option (gmap loc Post) :=
  match posts with
  | [] => Some h
  | l :: ls =>
      r ← getOldestPostInThread fuel h ph l;
      firstPost ← h !! r;
      p ← h !! l;
      addThreadIds fuel ph ls (<[l := set_threadId (makeThreadId firstPost) p]> h)
  end.

(** [threadHash[threadId].push(post)], creating the array if absent. *)
Definition thread_push (th : gmap string (list loc)) (t : string) (l : loc)
  : gmap string (list loc) :=
  <[t := default [] (th !! t) ++ [l]]> th.

(** [posts.forEach(post => { ...; threadHash[threadId].push(post); })] *)
Fixpoint updateThreadHash (h : gmap loc Post) (posts : list loc)
    (th : gmap string (list loc)) : option (gmap string (list loc)) :=
  match posts with
  | [] => Some th
  | l :: ls =>
      p ← h !! l;
      updateThreadHash h ls (thread_push th (tid_key (threadId p)) l)
  end.

(** [updateForumData(posts, fullSet)]; [now] is the value of [Date.now()]. *)
Definition updateForumData (fuel : nat) (now : Z) (posts : list loc)
    (fullSet : bool) (s : ForumState) : option ForumState :=
  let ph0 := if fullSet then ∅ else postHash s in
  let th0 := if fullSet then ∅ else threadHash s in
  ph ← updatePostHash (heap s) posts ph0;
  h ← addThreadIds fuel ph posts (heap s);
  th ← updateThreadHash h posts th0;
  Some (mkState h (forumLocale s) (Some now) ph th).

(** [getNewestPostInThread(post)]: [threadHash[post.threadId][0]].
    The outer [None] is the TypeError on a missing array; the inner
    [None] is [undefined] for an empty one. *)
Definition getNewestPostInThread (s : ForumState) (l : loc)
  : option (option loc) :=
  p ← heap s !! l;
  ps ← threadHash s !! tid_key (threadId p);
  Some (head ps).

(** ** setLocale *)

(** [if (locale !== forumLocale) { forumLocale = locale;
       forumUpdateTime = null; postHash = {}; }] *)
Definition setLocale (loc_ : string) (s : ForumState) : ForumState :=
  if bool_decide (Some loc_ = forumLocale s) then s
  else mkState (heap s) (Some loc_) None ∅ (threadHash s).

(** ** Status options and closing permission *)

(** The page's [surveyUser] object; the forum code reads its [id]
    ([post.posterInfo.id === surveyUser.id] in [parseContent]). *)
Record SurveyUser := mkSurveyUser { surveyUser_id : Z }.

(** [a === b] for an object [a] and a number [b]: values of different
    types are never strictly equal. *)
Definition strictEqObjectNumber (a : SurveyUser) (b : Z) : bool := false.

Section Permissions.

(** The host page's globals read by these functions: [surveyUser]
    ([None] when undefined), [surveyUserPerms.userIsTC], and the filter
    module's [cldrStForumFilter.passIfClosed]. *)
Variable surveyUser : option SurveyUser.
Variable surveyUserIsTC : bool.
Variable passIfClosed : gmap loc Post -> option (list loc) -> bool.

(** JavaScript truthiness of [myValue] (a string or [null]). *)
Definition truthy (v : option string) : bool :=
  match v with Some s => negb (String.eqb s "") | None => false end.

(** [userIsPoster(post)]: [post && typeof surveyUser !== 'undefined'
    && surveyUser === post.poster]. *)
Definition userIsPoster (h : gmap loc Post) (post : option loc) : bool :=
  match post with
  | Some l =>
      match surveyUser, h !! l with
      | Some u, Some p => strictEqObjectNumber u (poster p)
      | _, _ => false
      end
  | None => false
  end.

(** [userIsTC()] *)
Definition userIsTC : bool := surveyUserIsTC.

(** [threadIsClosed(firstPost)]: reading [firstPost.threadId] throws when
    [firstPost] is [null]. *)
Definition threadIsClosed (s : ForumState) (firstPost : option loc) : option bool :=
  l ← firstPost;
  p ← heap s !! l;
  Some (passIfClosed (heap s) (threadHash s !! tid_key (threadId p))).

(** [userCanClose(isReply, firstPost)]: [isReply && !threadIsClosed(firstPost)
    && (userIsPoster(firstPost) || userIsTC())], with short-circuiting. *)
Definition userCanClose (s : ForumState) (isReply : bool)
    (firstPost : option loc) : option bool :=
  if isReply then
    threadIsClosed s firstPost ≫= λ isClosed : bool,
      Some (if isClosed then false else userIsPoster (heap s) firstPost || userIsTC)
  else Some false.

(** [firstPost && firstPost.status === 'Request'] *)
Definition statusIsRequest (h : gmap loc Post) (firstPost : option loc) : bool :=
  match firstPost with
  | Some l => match h !! l with Some p => String.eqb (status p) "Request" | None => false end
  | None => false
  end.

(** [getStatusOptions(isReply, firstPost, myValue)]: the keys of the
    returned object, in insertion order. *)
Definition getStatusOptions (s : ForumState) (isReply : bool)
    (firstPost : option loc) (myValue : option string) : option (list string) :=
  let o1 := if truthy myValue && negb isReply then ["Request"] else [] in
  let o2 := o1 ++ ["Discuss"] in
  let o3 := if isReply && bool_decide (is_Some firstPost)
                && negb (userIsPoster (heap s) firstPost)
                && statusIsRequest (heap s) firstPost
            then o2 ++ ["Agree"; "Decline"] else o2 in
  userCanClose s isReply firstPost ≫= λ canClose : bool,
    Some (if canClose then o3 ++ ["Close"] else o3).

End Permissions.

(** ** Subjects of replies *)

Definition char_nl : string := String (Ascii.ascii_of_nat 10) EmptyString.
Definition char_dquote : string := String (Ascii.ascii_of_nat 34) EmptyString.

(** [s.replace(/pat/g, rep)] for a literal, non-empty [pat]: matches are
    replaced left to right without overlap. *)
Fixpoint replace_all_go (n : nat) (pat rep s : string) : string :=
  match n with
  | O => s
  | S n' =>
      match s with
      | EmptyString => EmptyString
      | String c s' =>
          if String.prefix pat s
          then rep +:+ replace_all_go n' pat rep
                 (String.substring (String.length pat) (String.length s) s)
          else String c (replace_all_go n' pat rep s')
      end
  end.

Definition replace_all (pat rep s : string) : string :=
  replace_all_go (String.length s) pat rep s.

(** [post2text(text)] *)
Definition post2text (text : option string) : string :=
  let out := match text with Some t => t | None => "(empty)" end in
  let out := replace_all "<p>" char_nl out in
  let out := replace_all "&quot;" char_dquote out in
  let out := replace_all "&lt;" "<" out in
  let out := replace_all "&gt;" ">" out in
  replace_all "&amp;" "&" out.

(** [makePostSubject(isReply, parentPost, subjectParam)] *)
Definition makePostSubject (isReply : bool) (parentPost : option Post)
    (subjectParam : string) : string :=
  match isReply, parentPost with
  | true, Some pp =>
      let subj := post2text (subject pp) in
      if negb (String.eqb (String.substring 0 3 subj) "Re:") then "Re: " +:+ subj else subj
  | _, _ => subjectParam
  end.

(** ** The DOM, as far as these functions use it *)

(** Nodes are allocated from a counter; [parentNode] and [childNodes]
    describe the tree.  A [DocumentFragment] is a node like any other. *)
Abbreviation node := positive.

Record Dom := mkDom {
  nextNode : node;
  parentNode : gmap node node;
  childNodes : gmap node (list node)
}.

(** [document.createElement(tag)] (also [createDocumentFragment] and
    [createTextNode]): a fresh node with no parent and no children. *)
Definition createElement (d : Dom) : node * Dom :=
  (nextNode d, mkDom (Pos.succ (nextNode d)) (parentNode d) (childNodes d)).

(** Is [a] an inclusive ancestor of [n]?  The walk up the tree takes at
    most [size parentNode + 1] steps in a tree; a longer walk (a cyclic
    parent map, which no DOM has) is answered [true]. *)
Fixpoint is_inclusive_ancestor (fuel : nat) (par : gmap node node) (a n : node)
  : bool :=
  match fuel with
  | O => true
  | S f =>
      if decide (a = n) then true
      else match par !! n with
           | Some n' => is_inclusive_ancestor f par a n'
           | None => false
           end
  end.

(** [pn.appendChild(c)] (and [fragment.append(c)] for a node [c]): throws a
    HierarchyRequestError when [c] is an inclusive ancestor of [pn];
    otherwise removes [c] from its old parent and appends it to [pn]. *)
Definition appendChild (pn c : node) (d : Dom) : option Dom :=
  if is_inclusive_ancestor (S (size (parentNode d))) (parentNode d) c pn then None
  else
    let ch := match parentNode d !! c with
              | Some old =>
                  <[old := filter (fun x => x <> c) (default [] (childNodes d !! old))]>
                    (childNodes d)
              | None => childNodes d
              end in
    Some (mkDom (nextNode d) (<[c := pn]> (parentNode d))
                (<[pn := default [] (ch !! pn) ++ [c]]> ch)).

(** ** parseContent *)

Record ParseOptions := mkOpts {
  showItemLink : bool;
  showReplyButton : bool;
  fullSet : bool;
  applyFilter : bool;
  showThreadCount : bool;
  createDomElements : bool
}.

(** [getDefaultParseOptions()] *)
Definition getDefaultParseOptions : ParseOptions :=
  mkOpts false false true false false true.

(** [getOptionsForContext(context)] *)
Definition getOptionsForContext (context : string) : ParseOptions :=
  let o := getDefaultParseOptions in
  if String.eqb context "main" then
    mkOpts true true (fullSet o) true true (createDomElements o)
  else if String.eqb context "summary" then
    mkOpts (showItemLink o) (showReplyButton o) (fullSet o) true
           (showThreadCount o) false
  else if String.eqb context "info" then
    mkOpts (showItemLink o) true (fullSet o) (applyFilter o)
           (showThreadCount o) (createDomElements o)
  else if String.eqb context "parent" then
    mkOpts (showItemLink o) (showReplyButton o) false (applyFilter o)
           (showThreadCount o) (createDomElements o)
  else o.

(** The local variables of [parseContent]: [topicDivs], [postDivs], and
    the [replies] expando property set on post nodes. *)
Record PC := mkPC {
  dom : Dom;
  topicDivs : gmap string node;
  postDivs : gmap Z node;
  repliesOf : gmap node node
}.

Definition set_dom (d : Dom) (pc : PC) : PC :=
  mkPC d (topicDivs pc) (postDivs pc) (repliesOf pc).

(** First loop: one thread container per thread id.  With [showItemLink]
    a [topicInfo] heading is appended to it; the locale link, item link and
    subject span are fresh nodes inside [topicInfo] and are left out. *)
Fixpoint createTopicDivs (opts : ParseOptions) (h : gmap loc Post)
    (posts : list loc) (pc : PC) : option PC :=
  match posts with
  | [] => Some pc
  | l :: ls =>
      p ← h !! l;
      let t := tid_key (threadId p) in
      match topicDivs pc !! t with
      | Some _ => createTopicDivs opts h ls pc
      | None =>
          let '(topicDiv, d1) := createElement (dom pc) in
          d2 ← (if showItemLink opts then
                  let '(topicInfo, d') := createElement d1 in
                  appendChild topicDiv topicInfo d'
                else Some d1);
          createTopicDivs opts h ls
            (mkPC d2 (<[t := topicDiv]> (topicDivs pc)) (postDivs pc) (repliesOf pc))
      end
  end.

(** Second loop: one node per post, [postDivs[post.id] = subpost].  The
    heading, type label, text and reply buttons are fresh nodes appended
    inside [subpost] and are left out. *)
Fixpoint createPostDivs (h : gmap loc Post) (posts : list loc) (pc : PC)
  : option PC :=
  match posts with
  | [] => Some pc
  | l :: ls =>
      p ← h !! l;
      let '(subpost, d1) := createElement (dom pc) in
      createPostDivs h ls
        (mkPC d1 (topicDivs pc) (<[id p := subpost]> (postDivs pc)) (repliesOf pc))
  end.

(** Third loop, one iteration: move the post's node under its parent's
    "replies" area, or under its thread container. *)
Definition reparentOne (h : gmap loc Post) (l : loc) (pc : PC) : option PC :=
  p ← h !! l;
  child ← postDivs pc !! id p;
  let toThread :=
    td ← topicDivs pc !! tid_key (threadId p);
    d1 ← appendChild td child (dom pc);
    Some (set_dom d1 pc) in
  if bool_decide (parent p <> -1) then
    match postDivs pc !! parent p with
    | Some pd =>
        match repliesOf pc !! pd with
        | Some r =>
            d1 ← appendChild r child (dom pc);
            Some (set_dom d1 pc)
        | None =>
            let '(r, d1) := createElement (dom pc) in
            d2 ← appendChild pd r d1;
            d3 ← appendChild r child d2;
            Some (mkPC d3 (topicDivs pc) (postDivs pc) (<[pd := r]> (repliesOf pc)))
        end
    | None => toThread
    end
  else toThread.

Fixpoint reparent (h : gmap loc Post) (posts : list loc) (pc : PC) : option PC :=
  match posts with
  | [] => Some pc
  | l :: ls => pc' ← reparentOne h l pc; reparent h ls pc'
  end.

Section Assemble.

(** [cldrStForumFilter.getFilteredThreadIds(threadHash, applyFilter)], of
    the filter module. *)
Variable getFilteredThreadIds :
  gmap loc Post -> gmap string (list loc) -> bool -> list string.

(** The [posts.forEach] loop of [filterAndAssembleForumThreads]. *)
Fixpoint assembleThreads (h : gmap loc Post) (posts : list loc)
    (tdivs : gmap string node) (frag : node) (filtered : list string)
    (count : nat) (d : Dom) : option (Dom * nat) :=
  match posts with
  | [] => Some (d, count)
  | l :: ls =>
      p ← h !! l;
      match threadId p with
      | Some t =>
          if decide (t ∈ filtered) then
            d' ← match tdivs !! t with
                 | Some td => appendChild frag td d
                 | None =>
                     (* [append(undefined)] appends the text "undefined" *)
                     let '(txt, d1) := createElement d in appendChild frag txt d1
                 end;
            assembleThreads h ls tdivs frag (filter (fun x => x <> t) filtered)
              (S count) d'
          else assembleThreads h ls tdivs frag filtered count d
      | None => assembleThreads h ls tdivs frag filtered count d
      end
  end.

(** [filterAndAssembleForumThreads(posts, topicDivs, applyFilter,
    showThreadCount)]: the fragment and the DOM after it is filled.  The
    text of the thread count heading is left out. *)
Definition filterAndAssembleForumThreads (s : ForumState) (posts : list loc)
    (tdivs : gmap string node) (applyFilter_ showThreadCount_ : bool)
    (d : Dom) : option (node * Dom) :=
  let filtered := getFilteredThreadIds (heap s) (threadHash s) applyFilter_ in
  let '(frag, d1) := createElement d in
  d2 ← (if showThreadCount_ then
          let '(countEl, d') := createElement d1 in appendChild frag countEl d'
        else Some d1);
  '(d3, _) ← assembleThreads (heap s) posts tdivs frag filtered 0 d2;
  Some (frag, d3).

(** [parseContent(posts, context)]: the forum state, the final DOM and
    the returned fragment. *)
Definition parseContent (fuel : nat) (now : Z) (posts : list loc)
    (context : string) (s : ForumState) (d : Dom)
  : option (ForumState * Dom * node) :=
  let opts := getOptionsForContext context in
  s1 ← updateForumData fuel now posts (fullSet opts) s;
  pc1 ← createTopicDivs opts (heap s1) posts (mkPC d ∅ ∅ ∅);
  pc2 ← createPostDivs (heap s1) posts pc1;
  pc3 ← reparent (heap s1) posts pc2;
  '(frag, d4) ← filterAndAssembleForumThreads s1 posts (topicDivs pc3)
                  (applyFilter opts) (showThreadCount opts) (dom pc3);
  Some (s1, d4, frag).

End Assemble.

(** ** Thread order, in the words of the specification *)

(** The thread ids of the posts, in the order of the input list. *)
Definition threadIdsOf (h : gmap loc Post) (posts : list loc) : list string :=
  omap (fun l => h !! l ≫= threadId) posts.

(** Each element once, at the place of its first occurrence. *)
Fixpoint dedup_first (l : list string) : list string :=
  match l with
  | [] => []
  | x :: xs => x :: filter (fun y => y <> x) (dedup_first xs)
  end.

(** The position of the first occurrence of [t] in [l]. *)
Fixpoint first_index (t : string) (l : list string) : nat :=
  match l with
  | [] => O
  | x :: xs => if String.eqb x t then O else S (first_index t xs)
  end.

(** The filter-passing threads, newest first: ordered by the position of
    their first (newest) post in the newest-first list. *)
Definition threadOrder (h : gmap loc Post) (posts : list loc)
    (filtered : list string) : list string :=
  filter (fun t => t ∈ filtered) (dedup_first (threadIdsOf h posts)).

(** Allocated nodes are below [nextNode]. *)
Definition dom_wf (d : Dom) : Prop :=
  (forall k v, parentNode d !! k = Some v ->
     (k < nextNode d)%positive /\ (v < nextNode d)%positive) /\
  (forall k cs, childNodes d !! k = Some cs -> (k < nextNode d)%positive).

(** The ids of the posts of the input list: the keys of [postDivs]. *)
Definition postIds (h : gmap loc Post) (posts : list loc) : list Z :=
  omap (fun l => id <$> h !! l) posts.

(** Distinct keys name distinct nodes. *)
Definition map_inj {K} `{Countable K} (m : gmap K node) : Prop :=
  forall k1 k2 v, m !! k1 = Some v -> m !! k2 = Some v -> k1 = k2.

(** The invariant of the reparenting loop.  [nA] is the first node
    allocated after the thread containers: containers lie below it and
    have no parent, post nodes lie above it. *)
Definition pc_ok (nA : node) (pc : PC) : Prop :=
  dom_wf (dom pc) /\ (nA <= nextNode (dom pc))%positive /\
  (forall t td, topicDivs pc !! t = Some td ->
     (td < nA)%positive /\ parentNode (dom pc) !! td = None) /\
  (forall k v, postDivs pc !! k = Some v ->
     (nA <= v)%positive /\ (v < nextNode (dom pc))%positive) /\
  (forall k v, repliesOf pc !! k = Some v -> (v < nextNode (dom pc))%positive).

(** ** The root ancestor, in the words of the specification *)

(** Following parent links through the post index until a post whose
    parent is [-1], or whose parent is absent from the index. *)
Inductive root_ancestor (h : gmap loc Post) (ph : gmap Z loc)
  : loc -> loc -> Prop :=
| ra_top l p :
    h !! l = Some p -> parent p = -1 -> root_ancestor h ph l l
| ra_orphan l p :
    h !! l = Some p -> ph !! parent p = None -> root_ancestor h ph l l
| ra_up l p l' r :
    h !! l = Some p -> parent p <> -1 -> ph !! parent p = Some l' ->
    root_ancestor h ph l' r -> root_ancestor h ph l r.

(** Posts as the data model has them: the parent is [-1] or a post id. *)
Definition parents_wf (h : gmap loc Post) : Prop :=
  forall l p, h !! l = Some p -> -1 <= parent p.

(** The fields of a post other than the mutable [threadId]. *)
Definition strip (p : Post) : Post :=
  mkPost (id p) (parent p) (locale p) (subject p) (status p) (poster p) None.

(** ** Concrete data for the examples *)

Definition post5 : Post := mkPost 5 (-1) "fr" (Some "Hello") "Request" 1 None.
Definition post9 : Post := mkPost 9 5 "fr" (Some "Re: Hello") "Agree" 2 None.

Definition heap59 : gmap loc Post := <[1%positive := post5]> (<[2%positive := post9]> ∅).

Definition state59 : ForumState := mkState heap59 (Some "fr") None ∅ ∅.

(** The input array [[post9; post5]] (newest first). *)
Definition posts59 : list loc := [2%positive; 1%positive].

Implicit Types (h : gmap loc Post) (ph : gmap Z loc) (posts : list loc)
  (l x r : loc) (p : Post) (fuel : nat).

(** ** Further definitions and concrete data *)

(** Every location stored in the post index denotes an object. *)
Definition index_closed (h : gmap loc Post) (ph : gmap Z loc) : Prop :=
  forall k x, ph !! k = Some x -> is_Some (h !! x).

(** ** Walking the parent links *)

Definition parent_step h ph (l l' : loc) : Prop := next_parent h ph l = Some l'.

(** No cycle of parent links is reachable from [l]. *)
Definition acyclic_from h ph l : Prop :=
  forall x, rtc (parent_step h ph) l x -> ~ tc (parent_step h ph) x x.

(** A walk [l -> x1 -> ... -> xn] along parent links. *)
Fixpoint chain h ph (l : loc) (xs : list loc) : Prop :=
  match xs with
  | [] => True
  | y :: ys => parent_step h ph l y /\ chain h ph y ys
  end.

Definition postHash59 : gmap Z loc := <[5 := 1%positive]> (<[9 := 2%positive]> ∅).

(** The thread (property key of [threadHash]) a post object is filed under. *)
Definition thread_of (h : gmap loc Post) (x : loc) : option string :=
  p ← h !! x; Some (tid_key (threadId p)).

(** An entry of [threadHash] after pushing the posts [L] of that thread. *)
Definition thread_entry (o : option (list loc)) (L : list loc) : option (list loc) :=
  match o, L with
  | None, [] => None
  | _, _ => Some (default [] o ++ L)
  end.

Definition post_rex : Post := mkPost 7 (-1) "fr" (Some "Re:x") "Discuss" 1 None.

(** A thread filter that passes every thread of [threadHash]. *)
Definition allThreads (h : gmap loc Post) (th : gmap string (list loc)) (b : bool)
  : list string := (map_to_list th).*1.

Definition dom0 : Dom := mkDom 1 ∅ ∅.

(** ** Three posts in two threads *)

Definition post5t : Post := mkPost 5 (-1) "fr" (Some "Hello") "Request" 1 (Some "fr|5").
Definition post9t : Post := mkPost 9 5 "fr" (Some "Re: Hello") "Agree" 2 (Some "fr|5").
Definition post7t : Post := mkPost 7 (-1) "fr" (Some "Bonjour") "Discuss" 3 (Some "fr|7").

Definition heap3 : gmap loc Post :=
  <[1%positive := post5t]> (<[2%positive := post9t]> (<[3%positive := post7t]> ∅)).

Definition state3 : ForumState :=
  mkState heap3 (Some "fr") None
    (<[5 := 1%positive]> (<[9 := 2%positive]> (<[7 := 3%positive]> ∅)))
    (<["fr|5" := [2%positive; 1%positive]]> (<["fr|7" := [3%positive]]> ∅)).

(** Newest first: post 9 (thread 5), post 7 (thread 7), post 5 (thread 5). *)
Definition posts3 : list loc := [2%positive; 3%positive; 1%positive].

Definition tdivs3 : gmap string node :=
  <["fr|5" := 1%positive]> (<["fr|7" := 2%positive]> ∅).

Definition dom3 : Dom := mkDom 3 ∅ ∅.

(** ** A reply shown without its parent *)

Definition heap9 : gmap loc Post := <[2%positive := post9]> ∅.

Definition state9 : ForumState := mkState heap9 (Some "fr") None ∅ ∅.

Definition posts9 : list loc := [2%positive].

Definition state9' : ForumState :=
  default state9 (updateForumData 10 0 posts9 true state9).

Definition pc9_1 : PC :=
  default (mkPC dom0 ∅ ∅ ∅)
    (createTopicDivs (getOptionsForContext "info") (heap state9') posts9 (mkPC dom0 ∅ ∅ ∅)).

Definition pc9_2 : PC :=
  default pc9_1 (createPostDivs (heap state9') posts9 pc9_1).

(** ** Composing a post *)

(** The JavaScript string of a value that is a string or [null]. *)
Definition js_str (v : option string) : string :=
  match v with Some u => u | None => "null" end.

(** [v ? v : null] for a string-valued property [v]. *)
Definition or_null (v : option string) : option string :=
  if truthy v then v else None.

(** [prefillPostText(postType, myValue)] *)
Definition prefillPostText (postType myValue : option string) : string :=
  if bool_decide (postType = Some "Close") then "I'm closing this thread"
  else if bool_decide (postType = Some "Request") then
    (if truthy myValue
     then "Please consider voting for " +:+ js_str myValue +:+ char_nl
     else "")
  else if bool_decide (postType = Some "Agree") then "I agree"
  else if bool_decide (postType = Some "Decline") then "I decline, since "
  else "".

(** [name="value"] *)
Definition html_attr (name value : string) : string :=
  name +:+ "=" +:+ char_dquote +:+ value +:+ char_dquote.

(** [makePostHtml(postType, locale, xpath, replyTo)] *)
Definition makePostHtml (postType : option string) (locale_ xpath : string)
    (replyTo : Z) : string :=
  "<form " +:+ html_attr "role" "form" +:+ " " +:+ html_attr "id" "post-form" +:+ ">" +:+
  "<div " +:+ html_attr "class" "form-group" +:+ ">" +:+
  "<div " +:+ html_attr "class" "input-group" +:+ ">" +:+
  "<span " +:+ html_attr "class" "input-group-addon" +:+ ">Subject:</span>" +:+
  "<input " +:+ html_attr "class" "form-control" +:+ " " +:+ html_attr "name" "subj" +:+
    " " +:+ html_attr "type" "text" +:+ " " +:+ html_attr "value" "" +:+ ">" +:+
  "</div>" +:+
  "<div " +:+ html_attr "id" "postType" +:+ " " +:+ html_attr "class" "pull-right postType" +:+
    ">" +:+ js_str postType +:+ "</div>" +:+
  "<textarea " +:+ html_attr "name" "text" +:+ " " +:+ html_attr "class" "form-control" +:+
    " " +:+ html_attr "placeholder" "Write your post here" +:+ "></textarea>" +:+
  "</div>" +:+
  "<button " +:+ html_attr "class" "btn btn-success submit-post btn-block" +:+
    ">Submit</button>" +:+
  "<input " +:+ html_attr "type" "hidden" +:+ " " +:+ html_attr "name" "forum" +:+
    " " +:+ html_attr "value" "true" +:+ ">" +:+
  "<input " +:+ html_attr "type" "hidden" +:+ " " +:+ html_attr "name" "_" +:+
    " " +:+ html_attr "value" locale_ +:+ ">" +:+
  "<input " +:+ html_attr "type" "hidden" +:+ " " +:+ html_attr "name" "xpath" +:+
    " " +:+ html_attr "value" xpath +:+ ">" +:+
  "<input " +:+ html_attr "type" "hidden" +:+ " " +:+ html_attr "name" "replyTo" +:+
    " " +:+ html_attr "value" (pretty replyTo) +:+ ">" +:+
  "</form>" +:+
  "<div " +:+ html_attr "class" "post" +:+ "></div>" +:+
  "<div " +:+ html_attr "class" "forumDiv" +:+ "></div>".

(** The [params] object of [openPostOrReply]; an absent property is [None]. *)
Record PostParams := mkParams {
  prm_locale : option string;
  prm_xpath : option string;
  prm_replyTo : option Z;
  prm_replyData : option loc;
  prm_subject : option string;
  prm_postType : option string;
  prm_myValue : option string
}.

(** The arguments [openPostOrReply] passes to [openPostWindow]. *)
Record PostWindow := mkWindow {
  win_html : string;
  win_subject : string;
  win_text : string;
  win_parent : option loc
}.

(** [params.replyTo && params.replyTo >= 0] *)
Definition isReplyTo (replyTo : option Z) : bool :=
  match replyTo with
  | Some n => bool_decide (n <> 0) && bool_decide (0 <= n)
  | None => false
  end.

Section Compose.

(** [post.xpath] as a JavaScript string (the post record of this model
    does not carry it). *)
Variable xpathOf : Post -> string.

(** [openPostOrReply(params)], up to the call of [openPostWindow].  Reading
    [firstPost.locale] throws when [firstPost] is [null]. *)
Definition openPostOrReply fuel (s : ForumState) (params : PostParams)
  : option PostWindow :=
  let isReply := isReplyTo (prm_replyTo params) in
  let replyTo := if isReply then default (-1) (prm_replyTo params) else -1 in
  let parentPost := if isReply then prm_replyData params else None in
  firstPost ← (match parentPost with
               | Some pl =>
                   fp ← getOldestPostInThread fuel (heap s) (postHash s) pl;
                   Some (Some fp)
               | None => Some None
               end);
  '(locale_, xpath) ← (if isReply then
                         fl ← firstPost;
                         fp ← heap s !! fl;
                         Some (locale fp, xpathOf fp)
                       else Some (default "" (prm_locale params),
                                  default "" (prm_xpath params)));
  parentObj ← (match parentPost with
               | Some pl => pp ← heap s !! pl; Some (Some pp)
               | None => Some None
               end);
  let subjectParam := default "" (prm_subject params) in
  let postType := or_null (prm_postType params) in
  let html := makePostHtml postType locale_ xpath replyTo in
  let subject := makePostSubject isReply parentObj subjectParam in
  let myValue := or_null (prm_myValue params) in
  let text := prefillPostText postType myValue in
  Some (mkWindow html subject text parentPost).

End Compose.

Section Window.

Variable getFilteredThreadIds :
  gmap loc Post -> gmap string (list loc) -> bool -> list string.

(** [openPostWindow(html, subject, text, parentPost)]: the form is built
    from [html], [subject] and [text] (its [forumDiv] holder is a fresh
    node); for a reply, [parseContent([parentPost], 'parent')] is appended
    to the holder. *)
Definition openPostWindow fuel (now : Z) (w : PostWindow) (s : ForumState)
    (d : Dom) : option (ForumState * Dom) :=
  let '(holder, d1) := createElement d in
  match win_parent w with
  | Some pl =>
      '(s1, d2, forumDiv) ← parseContent getFilteredThreadIds fuel now [pl]
                               "parent" s d1;
      d3 ← appendChild holder forumDiv d2;
      Some (s1, d3)
  | None => Some (s, d1)
  end.

End Window.

(** ** Buttons *)

(** [forumCreateChunk(text, tag, className)]: the element and, when [text]
    is truthy, its text node (the tag and class do not change the tree). *)
Definition forumCreateChunk (text : option string) (d : Dom) : option (node * Dom) :=
  let '(chunk, d1) := createElement d in
  if truthy text then
    let '(txt, d2) := createElement d1 in
    d3 ← appendChild chunk txt d2;
    Some (chunk, d3)
  else Some (chunk, d1).

(** The [Object.keys(options).forEach] loop of [addNewPostButtons] and
    [addReplyButtons]: one button per key, labelled [options[key]] (which is
    the key), appended to [el].  Each button is listed with the post type
    its click handler opens. *)
Fixpoint appendButtons (el : node) (postTypes : list string) (d : Dom)
  : option (Dom * list (node * string)) :=
  match postTypes with
  | [] => Some (d, [])
  | t :: ts =>
      '(b, d1) ← forumCreateChunk (Some t) d;
      d2 ← appendChild el b d1;
      '(d3, bs) ← appendButtons el ts d2;
      Some (d3, (b, t) :: bs)
  end.

Section Buttons.

Variable surveyUser : option SurveyUser.
Variable surveyUserIsTC : bool.
Variable passIfClosed : gmap loc Post -> option (list loc) -> bool.

(** [addNewPostButtons(el, locale, couldFlag, xpstrid, code, myValue)]:
    the buttons; their click handlers are [newPostParams] below. *)
Definition addNewPostButtons (s : ForumState) (el : node) (myValue : option string)
    (d : Dom) : option (Dom * list (node * string)) :=
  options ← getStatusOptions surveyUser surveyUserIsTC passIfClosed s false None myValue;
  appendButtons el options d.

(** [addReplyButtons(el, post)]; the click handlers are [replyParams]. *)
Definition addReplyButtons fuel (s : ForumState) (el : node) (post : loc) (d : Dom)
  : option (Dom * list (node * string)) :=
  firstPost ← getOldestPostInThread fuel (heap s) (postHash s) post;
  options ← getStatusOptions surveyUser surveyUserIsTC passIfClosed s true
              (Some firstPost) None;
  appendButtons el options d.

End Buttons.

Section Handlers.

(** The path header [o.result.ph] returned by [xpathMap.get] and
    [xpathMap.formatPathHeader]. *)
Variable PathHeader : Type.
Variable formatPathHeader : PathHeader -> string.

(** The subject computed by the click handler of [makeOneNewPostButton]. *)
Definition newPostSubject (couldFlag : bool) (xpstrid code : string)
    (ph : option PathHeader) : string :=
  let subj := match ph with
              | Some x => formatPathHeader x
              | None => code +:+ " " +:+ xpstrid
              end in
  if couldFlag then subj +:+ " (Flag for review)" else subj.

(** The [params] of the click handler of [makeOneNewPostButton]. *)
Definition newPostParams (postType : string) (locale_ : option string)
    (couldFlag : bool) (xpstrid code : string) (myValue : option string)
    (ph : option PathHeader) : PostParams :=
  mkParams locale_ (Some xpstrid) None None
    (Some (newPostSubject couldFlag xpstrid code ph)) (Some postType) myValue.

End Handlers.

(** The [params] of the click handler of [makeOneReplyButton(post, postType, label)]. *)
Definition replyParams (post : loc) (p : Post) (postType : string) : PostParams :=
  mkParams None None (Some (id p)) (Some post) None (Some postType) None.

(** ** The forum summary and the load URL *)

(** JavaScript truthiness of [forumUpdateTime] ([null] or a number). *)
Definition truthyZ (v : option Z) : bool :=
  match v with Some n => bool_decide (n <> 0) | None => false end.

(** [setLocale(locale)] for a value that may be [null]. *)
Definition setLocaleJS (v : option string) (s : ForumState) : ForumState :=
  if bool_decide (v = forumLocale s) then s
  else mkState (heap s) v None ∅ (threadHash s).

Definition FORUM_DEBUG : bool := false.

Section Summary.

(** The page's [surveySessionId] ([None] when undefined), whether
    [cldrStAjax] is defined, and [cldrStForumFilter.getFilteredThreadCounts()]
    as its keys and values in order. *)
Variable surveySessionId : option string.
Variable cldrStAjaxDefined : bool.
Variable getFilteredThreadCounts : list (string * Z).

(** The local-time fields of [new Date(x)]. *)
Variables getFullYear getMonth getDate getHours getMinutes : Z -> Z.

(** [pad(n)] inside [fmtDateTime]. *)
Definition pad (n : Z) : string :=
  if bool_decide (n < 10) then "0" +:+ pretty n else pretty n.

(** [fmtDateTime(x)] *)
Definition fmtDateTime (x : Z) : string :=
  pretty (getFullYear x) +:+ "-" +:+ pad (getMonth x + 1) +:+ "-" +:+
  pad (getDate x) +:+ " " +:+ pad (getHours x) +:+ ":" +:+ pad (getMinutes x).

(** [getLoadForumUrl()] *)
Definition getLoadForumUrl (s : ForumState) : string :=
  match surveySessionId with
  | None => ""
  | Some sid =>
      "SurveyAjax?s=" +:+ sid +:+ "&what=forum_fetch&xpath=0&_=" +:+ js_str (forumLocale s)
  end.

(** [loadForumForSummaryOnly(locale, id)] up to [cldrStAjax.sendXhr]: the
    state and the URL of the request sent, if any. *)
Definition loadForumForSummaryOnly (locale_ : option string) (s : ForumState)
  : ForumState * option string :=
  if cldrStAjaxDefined then
    let s1 := setLocaleJS locale_ s in (s1, Some (getLoadForumUrl s1))
  else (s, None).

(** The [Object.keys(c).forEach] loop of [reallyGetForumSummaryHtml]. *)
Fixpoint summaryItems (c : list (string * Z)) : string :=
  match c with
  | [] => ""
  | (k, v) :: c' =>
      "<li>" +:+ k +:+ ": " +:+ pretty v +:+ "</li>" +:+ char_nl +:+ summaryItems c'
  end.

(** [reallyGetForumSummaryHtml(canDoAjax)]: the html, the state, and the
    URL of the request sent by [loadForumForSummaryOnly], if any. *)
Definition reallyGetForumSummaryHtml (canDoAjax : bool) (s : ForumState)
  : string * ForumState * option string :=
  let hd := "<div id='forumSummary'>" +:+ char_nl in
  let tl := "</div>" +:+ char_nl in
  if negb (truthyZ (forumUpdateTime s)) then
    if canDoAjax then
      let '(s1, req) := loadForumForSummaryOnly (forumLocale s) s in
      (hd +:+ "<p>Loading Forum Summary...</p>" +:+ char_nl +:+ tl, s1, req)
    else (hd +:+ "<p>Load failed</p>n" +:+ tl, s, None)
  else
    (hd +:+ (if FORUM_DEBUG
             then "<p>Retrieved " +:+ fmtDateTime (default 0 (forumUpdateTime s)) +:+
                  "</p>" +:+ char_nl
             else "") +:+
     "<ul>" +:+ char_nl +:+ summaryItems getFilteredThreadCounts +:+ "</ul>" +:+ char_nl +:+ tl,
     s, None).

(** [getForumSummaryHtml(locale, userId)] ([cldrStForumFilter.setUserId]
    belongs to the filter module). *)
Definition getForumSummaryHtml (locale_ : option string) (s : ForumState)
  : string * ForumState * option string :=
  reallyGetForumSummaryHtml true (setLocaleJS locale_ s).

Variable getFilteredThreadIds :
  gmap loc Post -> gmap string (list loc) -> bool -> list string.

(** The [loadHandler] of [loadForumForSummaryOnly] for a response without
    [err] and with the summary element present: the new html of the
    element, the state, the DOM, and the URL of any further request. *)
Definition summaryLoadHandler fuel (now : Z) (posts : list loc) (s : ForumState)
    (d : Dom) : option (string * ForumState * Dom * option string) :=
  '(s1, d1, _) ← parseContent getFilteredThreadIds fuel now posts "summary" s d;
  let '(html, s2, req) := reallyGetForumSummaryHtml false s1 in
  Some (html, s2, d1, req).

(** [loadForum(locale, userId, forumMessage, params)] up to
    [cldrStAjax.sendXhr]: the state and the URL requested. *)
Definition loadForum (locale_ : string) (s : ForumState) : ForumState * string :=
  let s1 := setLocale locale_ s in (s1, getLoadForumUrl s1).

(** The [loadHandler] of [loadForum] for a response without [err], as far
    as the forum state goes: the state, the DOM, and the summary html with
    the URL of any further request ([None] when there are no posts and
    the summary is left empty). *)
Definition loadForumHandler fuel (now : Z) (posts : list loc) (s : ForumState)
    (d : Dom) : option (ForumState * Dom * option (string * option string)) :=
  match posts with
  | [] => Some (s, d, None)
  | _ :: _ =>
      '(s1, d1, _) ← parseContent getFilteredThreadIds fuel now posts "main" s d;
      let '(html, s2, req) := getForumSummaryHtml (forumLocale s1) s1 in
      Some (s2, d1, Some (html, req))
  end.

End Summary.

(** [getThreadHash(posts)] *)
Definition getThreadHash fuel (now : Z) (posts : list loc) (s : ForumState)
  : option (gmap string (list loc) * ForumState) :=
  s1 ← updateForumData fuel now posts true s;
  Some (threadHash s1, s1).

(** ** Helpers for the statements below *)

(** [pat] occurs in [s]. *)
Fixpoint str_contains (pat s : string) : bool :=
  String.prefix pat s ||
  match s with EmptyString => false | String _ s' => str_contains pat s' end.

(** One step up the tree. *)
Definition parent_of (par : gmap node node) (n m : node) : Prop := par !! n = Some m.

(** The walk up the tree from [n] reaches a node without a parent. *)
Inductive rooted (par : gmap node node) : node -> Prop :=
| rooted_top n : par !! n = None -> rooted par n
| rooted_step n m : par !! n = Some m -> rooted par m -> rooted par n.

(** The summary listing the thread counts. *)
Definition summaryCountsHtml (c : list (string * Z)) : string :=
  "<div id='forumSummary'>" +:+ char_nl +:+ "<ul>" +:+ char_nl +:+
  summaryItems c +:+ "</ul>" +:+ char_nl +:+ "</div>" +:+ char_nl.

(** ** Examples *)

Example updateForumData_59 :
  option_map (fun s => (fmap threadId (heap s), threadHash s))
    (updateForumData 10 0 posts59 true state59)
  = Some (<[1%positive := Some "fr|5"]> (<[2%positive := Some "fr|5"]> ∅),
          <["fr|5" := [2%positive; 1%positive]]> ∅).
Proof. vm_compute. reflexivity. Qed.

(** ** Lemmas on the indexing passes *)

Ltac inv_bind H :=
  repeat match type of H with
  | context [mbind _ ?m] =>
      let E := fresh "E" in destruct m eqn:E; simpl in H; try discriminate H
  | context [match ?m with Some _ => _ | None => _ end] =>
      let E := fresh "E" in destruct m eqn:E; try discriminate H
  end.

Lemma strip_set_threadId t p : strip (set_threadId t p) = strip p.
Proof. reflexivity. Qed.

Lemma next_parent_strip h ph l :
  next_parent (strip <$> h) ph l = next_parent h ph l.
Proof. unfold next_parent. rewrite lookup_fmap. by destruct (h !! l). Qed.

Lemma getOldest_strip fuel h ph l :
  getOldestPostInThread fuel (strip <$> h) ph l
  = getOldestPostInThread fuel h ph l.
Proof.
  revert l; induction fuel as [|f IH]; intros l; simpl; [done|].
  rewrite next_parent_strip. destruct (next_parent h ph l); auto.
Qed.

Lemma getOldest_same_strip fuel h1 h2 ph l :
  strip <$> h1 = strip <$> h2 ->
  getOldestPostInThread fuel h1 ph l = getOldestPostInThread fuel h2 ph l.
Proof.
  intros E. rewrite <- (getOldest_strip _ h1), E, getOldest_strip. done.
Qed.

Lemma strip_insert_set h l p t :
  h !! l = Some p -> strip <$> <[l := set_threadId t p]> h = strip <$> h.
Proof.
  intros Hl. rewrite fmap_insert, strip_set_threadId.
  apply insert_id. rewrite lookup_fmap, Hl. done.
Qed.

Lemma addThreadIds_strip fuel ph posts h h' :
  addThreadIds fuel ph posts h = Some h' -> strip <$> h' = strip <$> h.
Proof.
  revert h. induction posts as [|l ls IH]; intros h H; simpl in H.
  - by injection H as <-.
  - inv_bind H. rewrite (IH _ H). by eapply strip_insert_set.
Qed.

Lemma addThreadIds_frame fuel ph posts h h' x :
  addThreadIds fuel ph posts h = Some h' -> x ∉ posts -> h' !! x = h !! x.
Proof.
  revert h. induction posts as [|l ls IH]; intros h H Hx; simpl in H.
  - by injection H as <-.
  - inv_bind H. apply not_elem_of_cons in Hx as [Hxl Hx].
    rewrite (IH _ H Hx). by rewrite lookup_insert_ne.
Qed.

Lemma addThreadIds_spec fuel ph posts h h' :
  addThreadIds fuel ph posts h = Some h' ->
  forall x, x ∈ posts ->
  exists p r pr,
    h' !! x = Some p /\
    getOldestPostInThread fuel h ph x = Some r /\
    (strip <$> h) !! r = Some pr /\
    threadId p = Some (makeThreadId pr).
Proof.
  revert h. induction posts as [|l ls IH]; intros h H x Hx; simpl in H.
  - by apply elem_of_nil in Hx.
  - inv_bind H.
    destruct (decide (x ∈ ls)) as [Hin|Hnin].
    + destruct (IH _ H x Hin) as (p' & r' & pr & Hp & Hr & Hpr & Ht).
      rewrite (strip_insert_set _ _ _ _ E1) in Hpr.
      rewrite (getOldest_same_strip _ _ h _ _ (strip_insert_set _ _ _ _ E1)) in Hr.
      eauto 10.
    + assert (x = l) as -> by (apply elem_of_cons in Hx; naive_solver).
      rewrite (addThreadIds_frame _ _ _ _ _ _ H Hnin), lookup_insert_eq.
      eexists _, _, (strip _). split_and!; [done|exact E|..].
      * by rewrite lookup_fmap, E0.
      * reflexivity.
Qed.

Lemma updatePostHash_closed h posts ph0 ph :
  updatePostHash h posts ph0 = Some ph ->
  index_closed h ph0 -> index_closed h ph.
Proof.
  revert ph0. induction posts as [|l ls IH]; intros ph0 H Hc; simpl in H.
  - by injection H as <-.
  - inv_bind H. apply (IH _ H). intros k x Hk.
    rewrite lookup_insert in Hk. case_decide; [simplify_eq; by eauto|eauto].
Qed.

Lemma updatePostHash_in h posts ph0 ph x :
  updatePostHash h posts ph0 = Some ph -> x ∈ posts -> is_Some (h !! x).
Proof.
  revert ph0. induction posts as [|l ls IH]; intros ph0 H Hx; simpl in H.
  - by apply elem_of_nil in Hx.
  - inv_bind H. apply elem_of_cons in Hx as [->|Hx]; eauto.
Qed.

Lemma index_closed_strip h h' ph :
  strip <$> h' = strip <$> h -> index_closed h ph -> index_closed h' ph.
Proof.
  intros E Hc k x Hk. destruct (Hc k x Hk) as [p Hp].
  assert ((strip <$> h') !! x = Some (strip p)) as Hx
    by (rewrite E, lookup_fmap, Hp; done).
  rewrite lookup_fmap in Hx. destruct (h' !! x); [eauto|discriminate].
Qed.

Lemma parents_wf_strip h h' :
  strip <$> h' = strip <$> h -> parents_wf h -> parents_wf h'.
Proof.
  intros E Hw l p Hl.
  assert ((strip <$> h) !! l = Some (strip p)) as Hx
    by (rewrite <- E, lookup_fmap, Hl; done).
  rewrite lookup_fmap in Hx. destruct (h !! l) as [q|] eqn:Hq; [|discriminate].
  simpl in Hx. injection Hx; intros. apply Hw in Hq. lia.
Qed.

Lemma getOldest_root fuel h ph l r :
  parents_wf h -> index_closed h ph -> is_Some (h !! l) ->
  getOldestPostInThread fuel h ph l = Some r -> root_ancestor h ph l r.
Proof.
  intros Hw Hc. revert l. induction fuel as [|f IH]; intros l [p Hp] H;
    simpl in H; [discriminate|].
  unfold next_parent in H. rewrite Hp in H.
  case_bool_decide as Hpos.
  - destruct (ph !! parent p) as [l'|] eqn:Hl'.
    + eapply ra_up; [exact Hp|lia|exact Hl'|]. apply IH; [|exact H].
      by eapply Hc.
    + injection H as <-. by eapply ra_orphan.
  - injection H as <-. apply Hw in Hp as Hge.
    eapply ra_top; [exact Hp|lia].
Qed.

Lemma index_closed_empty h : index_closed h ∅.
Proof. intros k x Hk. by rewrite lookup_empty in Hk. Qed.

Lemma lookup_strip_Some h x q :
  (strip <$> h) !! x = Some q -> exists p, h !! x = Some p /\ strip p = q.
Proof.
  rewrite lookup_fmap. destruct (h !! x) as [p|]; simpl; [|discriminate].
  intros [= <-]. eauto.
Qed.

Lemma parents_wf_heap59 : parents_wf heap59.
Proof.
  intros l p Hl. unfold heap59 in Hl.
  rewrite !lookup_insert, lookup_empty in Hl.
  repeat case_decide; simplify_eq; simpl; lia.
Qed.

Lemma getOldest_None_chain n h ph l :
  getOldestPostInThread n h ph l = None ->
  exists xs, length xs = n /\ chain h ph l xs.
Proof.
  revert l. induction n as [|n IH]; intros l H.
  - by exists [].
  - simpl in H. destruct (next_parent h ph l) as [l'|] eqn:Hn; [|discriminate].
    destruct (IH _ H) as (xs & Hlen & Hc).
    exists (l' :: xs). simpl. auto.
Qed.

Lemma chain_tc h ph l xs y :
  chain h ph l xs -> y ∈ xs -> tc (parent_step h ph) l y.
Proof.
  revert l. induction xs as [|z zs IH]; intros l Hc Hy; simpl in Hc.
  - by apply elem_of_nil in Hy.
  - destruct Hc as [Hs Hc]. apply elem_of_cons in Hy as [->|Hy].
    + by apply tc_once.
    + eapply tc_l; [exact Hs|]. by apply IH.
Qed.

Lemma chain_NoDup h ph l xs :
  chain h ph l xs -> acyclic_from h ph l -> NoDup xs.
Proof.
  revert l. induction xs as [|y ys IH]; intros l Hc Hacy; simpl in Hc.
  - constructor.
  - destruct Hc as [Hs Hc]. constructor.
    + intros Hin. apply (Hacy y); [by apply rtc_once|].
      by eapply chain_tc.
    + apply (IH y Hc). intros x Hx. apply Hacy.
      eapply rtc_l; [exact Hs|exact Hx].
Qed.

Lemma chain_in_index h ph l xs y :
  chain h ph l xs -> y ∈ xs -> y ∈ (map_to_list ph).*2.
Proof.
  revert l. induction xs as [|z zs IH]; intros l Hc Hy; simpl in Hc.
  - by apply elem_of_nil in Hy.
  - destruct Hc as [Hs Hc]. apply elem_of_cons in Hy as [->|Hy]; [|by eauto].
    unfold parent_step, next_parent in Hs.
    destruct (h !! l) as [p|]; [|discriminate].
    case_bool_decide; [|discriminate].
    apply list_elem_of_fmap. exists (parent p, z). split; [done|].
    by apply elem_of_map_to_list.
Qed.

Lemma getOldest_step n h ph x y r :
  parent_step h ph x y -> getOldestPostInThread n h ph x = Some r ->
  exists m, n = S m /\ getOldestPostInThread m h ph y = Some r.
Proof.
  intros Hs H. destruct n as [|m]; simpl in H; [discriminate|].
  unfold parent_step in Hs. rewrite Hs in H. eauto.
Qed.

Lemma getOldest_rtc n h ph x y r :
  rtc (parent_step h ph) x y -> getOldestPostInThread n h ph x = Some r ->
  exists m, (m <= n)%nat /\ getOldestPostInThread m h ph y = Some r.
Proof.
  intros Hr. revert n. induction Hr as [x|x z y Hs Hr IH]; intros n H.
  - exists n. split; [lia|done].
  - destruct (getOldest_step _ _ _ _ _ _ Hs H) as (m & -> & Hm).
    destruct (IH _ Hm) as (m' & Hle & Hm'). exists m'. split; [lia|done].
Qed.

Lemma getOldest_no_cycle n h ph x r :
  getOldestPostInThread n h ph x = Some r -> ~ tc (parent_step h ph) x x.
Proof.
  revert x. induction (lt_wf n) as [n _ IH]; intros x H Hc.
  inversion Hc as [? ? Hs|? y ? Hs Hc']; subst.
  - destruct (getOldest_step _ _ _ _ _ _ Hs H) as (m & -> & Hm).
    apply (IH m ltac:(lia) x Hm). by apply tc_once.
  - rename Hc' into Hc0. clear Hc. rename Hc0 into Hc. destruct (getOldest_step _ _ _ _ _ _ Hs H) as (m & -> & Hm).
    destruct (getOldest_rtc _ _ _ _ _ _ (tc_rtc _ _ Hc) Hm) as (m' & Hle & Hm').
    apply (IH m' ltac:(lia) x Hm'). eapply tc_l; [exact Hs|exact Hc].
Qed.

(** ** C1: every thread id is built from the root ancestor *)

(** C1. After [updateForumData(posts, true)], the [threadId] that
    [addThreadIds] stored in each post of [posts] is the locale of its root
    ancestor, then ["|"], then the id of that root ancestor, where the root
    ancestor is reached by following parent links through the post index
    until a post with parent [-1] or with a parent absent from the index. *)
Theorem updateForumData_threadId_root fuel now posts s s' :
  parents_wf (heap s) ->
  updateForumData fuel now posts true s = Some s' ->
  forall l, l ∈ posts ->
  exists p r pr,
    heap s' !! l = Some p /\
    root_ancestor (heap s') (postHash s') l r /\
    heap s' !! r = Some pr /\
    threadId p = Some (locale pr +:+ "|" +:+ pretty (id pr)).
Proof.
  intros Hw H l Hl. unfold updateForumData in H. simpl in H. inv_bind H.
  injection H as <-. simpl.
  rename g into ph, g0 into h'.
  pose proof (addThreadIds_strip _ _ _ _ _ E0) as Hs.
  destruct (addThreadIds_spec _ _ _ _ _ E0 l Hl)
    as (p & r & pr0 & Hp & Hr & Hpr & Ht).
  rewrite <- Hs in Hpr. apply lookup_strip_Some in Hpr as (q & Hq & <-).
  exists p, r, q. split_and!; [done| |done|exact Ht].
  apply getOldest_root with (fuel := fuel).
  - exact (parents_wf_strip _ _ Hs Hw).
  - apply (index_closed_strip _ _ _ Hs).
    apply (updatePostHash_closed _ _ _ _ E), index_closed_empty.
  - by exists p.
  - by rewrite (getOldest_same_strip _ _ (heap s) _ _ Hs).
Qed.

(** Instance of C1 on the posts [{id:5,parent:-1,locale:"fr"}] and
    [{id:9,parent:5,locale:"fr"}]: the reply gets the thread id ["fr|5"]. *)
Lemma updateForumData_threadId_root_witness :
  parents_wf heap59 /\
  match updateForumData 10 0 posts59 true state59 with
  | Some s' =>
      exists p r pr,
        heap s' !! 2%positive = Some p /\
        root_ancestor (heap s') (postHash s') 2%positive r /\
        heap s' !! r = Some pr /\
        threadId p = Some (locale pr +:+ "|" +:+ pretty (id pr))
  | None => False
  end.
Proof.
  split; [exact parents_wf_heap59|].
  destruct (updateForumData 10 0 posts59 true state59) as [s'|] eqn:E.
  - apply (updateForumData_threadId_root 10 0 posts59 state59 s'
             parents_wf_heap59 E).
    unfold posts59. left.
  - vm_compute in E. discriminate E.
Defined.

(** ** C9: termination of getOldestPostInThread *)

(** C9. The loop of [getOldestPostInThread] started at [l] terminates
    exactly when no cycle of parent links is reachable from [l]; on an
    acyclic walk [size postHash + 1] iterations always suffice. *)
Theorem getOldestPostInThread_terminates h ph l :
  (acyclic_from h ph l ->
   exists r, getOldestPostInThread (S (size ph)) h ph l = Some r) /\
  ((exists fuel r, getOldestPostInThread fuel h ph l = Some r) ->
   acyclic_from h ph l).
Proof.
  split.
  - intros Hacy.
    destruct (getOldestPostInThread (S (size ph)) h ph l) as [r|] eqn:E;
      [by exists r|exfalso].
    destruct (getOldest_None_chain _ _ _ _ E) as (xs & Hlen & Hc).
    pose proof (chain_NoDup _ _ _ _ Hc Hacy) as Hnd.
    assert (xs ⊆+ (map_to_list ph).*2) as Hsub.
    { apply NoDup_submseteq; [exact Hnd|]. intros y Hy.
      by eapply chain_in_index. }
    apply submseteq_length in Hsub.
    rewrite length_fmap, length_map_to_list in Hsub. lia.
  - intros (fuel & r & H) x Hx.
    destruct (getOldest_rtc _ _ _ _ _ _ Hx H) as (m & _ & Hm).
    exact (getOldest_no_cycle _ _ _ _ _ Hm).
Qed.

(** Instance of C9: the walk from post 9 in the two-post example. *)
Lemma getOldestPostInThread_terminates_witness :
  acyclic_from heap59 postHash59 2%positive /\
  exists r, getOldestPostInThread (S (size postHash59)) heap59 postHash59 2%positive
            = Some r.
Proof.
  assert (acyclic_from heap59 postHash59 2%positive) as Hacy.
  { apply (proj2 (getOldestPostInThread_terminates heap59 postHash59 2%positive)).
    exists 10%nat, 1%positive. vm_compute. reflexivity. }
  split; [exact Hacy|].
  exact (proj1 (getOldestPostInThread_terminates heap59 postHash59 2%positive) Hacy).
Defined.

(** ** Re-running the indexing passes *)

Lemma lookup_same_strip h1 h2 x p :
  strip <$> h1 = strip <$> h2 -> h1 !! x = Some p ->
  exists q, h2 !! x = Some q /\ strip q = strip p.
Proof.
  intros E Hx.
  assert ((strip <$> h2) !! x = Some (strip p)) as H2
    by (rewrite <- E, lookup_fmap, Hx; done).
  apply lookup_strip_Some in H2 as (q & Hq & Hs). eauto.
Qed.

Lemma updatePostHash_same_strip h1 h2 posts ph0 :
  strip <$> h1 = strip <$> h2 ->
  updatePostHash h1 posts ph0 = updatePostHash h2 posts ph0.
Proof.
  intros E. revert ph0. induction posts as [|l ls IH]; intros ph0; simpl; [done|].
  destruct (h1 !! l) as [p|] eqn:H1.
  - destruct (lookup_same_strip _ _ _ _ E H1) as (q & -> & Hq). simpl.
    replace (id q) with (id p) by (apply (f_equal id) in Hq; simpl in Hq; congruence).
    apply IH.
  - assert ((strip <$> h2) !! l = None) as H2
      by (rewrite <- E, lookup_fmap, H1; done).
    rewrite lookup_fmap in H2. by destruct (h2 !! l).
Qed.

Lemma set_threadId_strip t p : set_threadId t (strip p) = set_threadId t p.
Proof. reflexivity. Qed.

Lemma makeThreadId_strip p : makeThreadId (strip p) = makeThreadId p.
Proof. reflexivity. Qed.

Lemma addThreadIds_rerun fuel ph posts h h2 h' :
  strip <$> h = strip <$> h2 ->
  addThreadIds fuel ph posts h = Some h' ->
  exists h2', addThreadIds fuel ph posts h2 = Some h2' /\
    forall x, h2' !! x = if decide (x ∈ posts) then h' !! x else h2 !! x.
Proof.
  revert h h2. induction posts as [|l ls IH]; intros h h2 E H; simpl in H.
  - injection H as <-. exists h2. split; [done|]. intros x.
    by rewrite decide_False by (apply not_elem_of_nil).
  - destruct (getOldestPostInThread fuel h ph l) as [r|] eqn:E0;
      simpl in H; [|discriminate].
    destruct (h !! r) as [fp|] eqn:E1; simpl in H; [|discriminate].
    destruct (h !! l) as [p|] eqn:E2; simpl in H; [|discriminate].
    destruct (lookup_same_strip _ _ _ _ E E1) as (fp2 & Hfp2 & Sfp).
    destruct (lookup_same_strip _ _ _ _ E E2) as (p2 & Hp2 & Sp).
    set (t := makeThreadId fp).
    assert (strip <$> <[l := set_threadId t p]> h
            = strip <$> <[l := set_threadId t p2]> h2) as E'.
    { by rewrite (strip_insert_set _ _ _ _ E2), (strip_insert_set _ _ _ _ Hp2). }
    destruct (IH _ _ E' H) as (h2' & Hrun & Hlook).
    exists h2'. split.
    + simpl. rewrite <- (getOldest_same_strip _ _ _ _ _ E), E0. simpl.
      rewrite Hfp2. simpl. rewrite Hp2. simpl.
      rewrite <- (makeThreadId_strip fp2), Sfp, makeThreadId_strip. exact Hrun.
    + intros x. rewrite Hlook.
      destruct (decide (x ∈ ls)) as [Hin|Hnin].
      * rewrite decide_True by (by apply elem_of_cons; right). done.
      * destruct (decide (x = l)) as [->|Hne].
        -- rewrite decide_True by (by apply elem_of_cons; left).
           rewrite (addThreadIds_frame _ _ _ _ _ _ H Hnin), !lookup_insert_eq.
           by rewrite <- (set_threadId_strip _ p2), Sp, set_threadId_strip.
        -- rewrite decide_False by (rewrite elem_of_cons; naive_solver).
           by rewrite lookup_insert_ne by congruence.
Qed.

Lemma updateThreadHash_lookup h posts th0 th :
  updateThreadHash h posts th0 = Some th ->
  forall t, th !! t
    = thread_entry (th0 !! t) (filter (fun x => thread_of h x = Some t) posts).
Proof.
  revert th0. induction posts as [|l ls IH]; intros th0 H t; simpl in H.
  - injection H as <-. simpl. destruct (th0 !! t); simpl; [by rewrite app_nil_r|done].
  - inv_bind H. rewrite (IH _ H t). rewrite filter_cons.
    unfold thread_push. rewrite lookup_insert.
    assert (thread_of h l = Some (tid_key (threadId p))) as Hk
      by (unfold thread_of; rewrite E; done).
    destruct (decide (tid_key (threadId p) = t)) as [<-|Hne].
    + rewrite decide_True by exact Hk.
      destruct (th0 !! tid_key (threadId p)); simpl;
        by rewrite <- ?app_assoc.
    + rewrite decide_False by (rewrite Hk; congruence). done.
Qed.

Ltac run_updateForumData H :=
  unfold updateForumData in H; simpl in H;
  let ph := fresh "ph" in let h1 := fresh "h1" in let th := fresh "th" in
  let Eph := fresh "Eph" in let Eh := fresh "Eh" in let Eth := fresh "Eth" in
  destruct (updatePostHash _ _ _) as [ph|] eqn:Eph; simpl in H; [|discriminate H];
  destruct (addThreadIds _ _ _ _) as [h1|] eqn:Eh; simpl in H; [|discriminate H];
  destruct (updateThreadHash _ _ _) as [th|] eqn:Eth; simpl in H; [|discriminate H];
  injection H as <-.

(** ** C3: the full-set indexing step is idempotent *)

(** C3. Running [updateForumData(posts, true)] a second time on the state
    it produced (the same post objects, now carrying their [threadId])
    succeeds and leaves the post index, the thread index with its
    per-thread lists, and the post objects unchanged. *)
Theorem updateForumData_fullSet_idempotent fuel now now' posts s s1 :
  updateForumData fuel now posts true s = Some s1 ->
  exists s2,
    updateForumData fuel now' posts true s1 = Some s2 /\
    postHash s2 = postHash s1 /\
    threadHash s2 = threadHash s1 /\
    heap s2 = heap s1.
Proof.
  intros H. run_updateForumData H.
  pose proof (addThreadIds_strip _ _ _ _ _ Eh) as Hs.
  destruct (addThreadIds_rerun _ _ _ _ h1 _ (eq_sym Hs) Eh) as (h2 & Hrun & Hlook).
  assert (h2 = h1) as ->.
  { apply map_eq. intros x. rewrite Hlook. by destruct (decide (x ∈ posts)). }
  unfold updateForumData; simpl.
  rewrite (updatePostHash_same_strip _ (heap s) _ _ Hs), Eph. simpl.
  rewrite Hrun. simpl. rewrite Eth. simpl.
  eexists. split; [reflexivity|]. simpl. auto.
Qed.

(** Instance of C3 on the two-post example. *)
Lemma updateForumData_fullSet_idempotent_witness :
  match updateForumData 10 0 posts59 true state59 with
  | Some s1 =>
      exists s2,
        updateForumData 10 1 posts59 true s1 = Some s2 /\
        postHash s2 = postHash s1 /\
        threadHash s2 = threadHash s1 /\
        heap s2 = heap s1
  | None => False
  end.
Proof.
  destruct (updateForumData 10 0 posts59 true state59) as [s1|] eqn:E.
  - exact (updateForumData_fullSet_idempotent 10 0 1 posts59 state59 s1 E).
  - vm_compute in E. discriminate E.
Defined.

(** ** C10: per-thread lists keep the input order *)

(** C10. After [updateForumData(posts, true)], every array of
    [threadHash] is the sub-list of [posts] (in the input order) of the
    posts filed under that thread, and is non-empty; for every post of
    [posts], [getNewestPostInThread] returns the first post of its thread
    in [posts], i.e. the newest one of a newest-first list. *)
Theorem updateForumData_thread_order fuel now posts s s' :
  updateForumData fuel now posts true s = Some s' ->
  (forall t L, threadHash s' !! t = Some L ->
     L = filter (fun x => thread_of (heap s') x = Some t) posts /\ L <> []) /\
  (forall l, l ∈ posts ->
     exists t y,
       thread_of (heap s') l = Some t /\
       head (filter (fun x => thread_of (heap s') x = Some t) posts) = Some y /\
       getNewestPostInThread s' l = Some (Some y)).
Proof.
  intros H. run_updateForumData H. simpl.
  pose proof (updateThreadHash_lookup _ _ _ _ Eth) as Hth.
  split.
  - intros t L HL. rewrite Hth, lookup_empty in HL.
    destruct (filter _ posts) as [|y ys]; simpl in HL; [discriminate|].
    injection HL as <-. split; [done|discriminate].
  - intros l Hl.
    destruct (addThreadIds_spec _ _ _ _ _ Eh l Hl) as (p & _ & _ & Hp & _).
    set (t := tid_key (threadId p)).
    assert (thread_of h1 l = Some t) as Ht
      by (unfold thread_of; rewrite Hp; done).
    assert (l ∈ filter (fun x => thread_of h1 x = Some t) posts) as Hin
      by (apply list_elem_of_filter; auto).
    destruct (filter (fun x => thread_of h1 x = Some t) posts) as [|y ys] eqn:F;
      [by apply elem_of_nil in Hin|].
    exists t, y. split_and!; [done|by rewrite F|].
    unfold getNewestPostInThread; simpl. rewrite Hp. simpl.
    fold t. rewrite Hth, lookup_empty, F. done.
Qed.

(** Instance of C10 on the two-post example. *)
Lemma updateForumData_thread_order_witness :
  match updateForumData 10 0 posts59 true state59 with
  | Some s' =>
      (forall t L, threadHash s' !! t = Some L ->
         L = filter (fun x => thread_of (heap s') x = Some t) posts59 /\ L <> []) /\
      (forall l, l ∈ posts59 ->
         exists t y,
           thread_of (heap s') l = Some t /\
           head (filter (fun x => thread_of (heap s') x = Some t) posts59) = Some y /\
           getNewestPostInThread s' l = Some (Some y))
  | None => False
  end.
Proof.
  destruct (updateForumData 10 0 posts59 true state59) as [s'|] eqn:E.
  - exact (updateForumData_thread_order 10 0 posts59 state59 s' E).
  - vm_compute in E. discriminate E.
Defined.

(** On the example, the thread ["fr|5"] is [[post9; post5]] and its newest
    post is post 9. *)
Example getNewestPostInThread_59 :
  option_map (fun s => getNewestPostInThread s 1%positive)
    (updateForumData 10 0 posts59 true state59)
  = Some (Some (Some 2%positive)).
Proof. vm_compute. reflexivity. Qed.

Example post2text_entities :
  post2text (Some "a &lt;b&gt; &amp;amp;") = "a <b> &amp;".
Proof. reflexivity. Qed.

Example makePostSubject_59 :
  makePostSubject true (Some post5) "" = "Re: Hello" /\
  makePostSubject true (Some post9) "" = "Re: Hello" /\
  makePostSubject false (Some post5) "x" = "x".
Proof. split_and!; reflexivity. Qed.

(** ** C2: setLocale on a locale change *)

Lemma setLocale_change (lc : string) s :
  Some lc <> forumLocale s ->
  postHash (setLocale lc s) = ∅ /\ forumUpdateTime (setLocale lc s) = None /\
  threadHash (setLocale lc s) = threadHash s.
Proof. intros Hne. unfold setLocale. by rewrite bool_decide_false. Qed.

(** C2 (code defect). After indexing the two-post example for ["fr"],
    [setLocale("de")] empties [postHash] and resets the refresh time, but
    leaves the thread ["fr|5"] in [threadHash]. *)
Theorem setLocale_keeps_threadHash :
  match updateForumData 10 0 posts59 true state59 with
  | Some s =>
      postHash (setLocale "de" s) = ∅ /\
      forumUpdateTime (setLocale "de" s) = None /\
      threadHash (setLocale "de" s) = <["fr|5" := [2%positive; 1%positive]]> ∅
  | None => False
  end.
Proof. vm_compute. split_and!; reflexivity. Qed.

(** ** C6, C7: the allowed post types *)

Ltac not_in_list :=
  let Hin := fresh "Hin" in
  intros Hin;
  repeat (apply elem_of_cons in Hin as [Hin|Hin]; [discriminate Hin|]);
  by apply elem_of_nil in Hin.

Lemma truthy_spec v : truthy v = true <-> exists s, v = Some s /\ s <> "".
Proof.
  destruct v as [s|]; simpl.
  - destruct (String.eqb_spec s "") as [->|Hne]; simpl; split.
    + discriminate.
    + intros (s' & [= <-] & Hs). done.
    + intros _. eauto.
    + done.
  - split; [discriminate|]. intros (s & ? & _). discriminate.
Qed.

(** [surveyUser] is an object and [post.poster] a number, so the strict
    comparison in [userIsPoster] never holds. *)
Lemma userIsPoster_never surveyUser h post :
  userIsPoster surveyUser h post = false.
Proof.
  unfold userIsPoster. destruct post as [l|]; [|done].
  by destruct surveyUser, (h !! l).
Qed.

(** The condition under which [Agree] and [Decline] are offered. *)
Lemma agree_cond_spec surveyUser s isReply firstPost :
  (isReply && bool_decide (is_Some firstPost)
   && negb (userIsPoster surveyUser (heap s) firstPost)
   && statusIsRequest (heap s) firstPost) = true <->
  isReply = true /\
  exists l p, firstPost = Some l /\ heap s !! l = Some p /\ status p = "Request".
Proof.
  rewrite userIsPoster_never, !andb_true_iff, bool_decide_eq_true. simpl.
  split.
  - intros [[[Hr [l Hl]] _] Hreq]. subst firstPost. split; [exact Hr|].
    unfold statusIsRequest in Hreq.
    destruct (heap s !! l) as [p|] eqn:Hp; [|discriminate].
    apply String.eqb_eq in Hreq. by exists l, p.
  - intros [Hr (l & p & -> & Hp & Hst)].
    split_and!; [done|by eexists|done|].
    unfold statusIsRequest. rewrite Hp. by apply String.eqb_eq.
Qed.

Lemma status_options_mem (b1 b3 c : bool) (x : string) :
  x ∈ (if c then (if b3 then ((if b1 then ["Request"] else []) ++ ["Discuss"])
                              ++ ["Agree"; "Decline"]
                  else (if b1 then ["Request"] else []) ++ ["Discuss"]) ++ ["Close"]
       else (if b3 then ((if b1 then ["Request"] else []) ++ ["Discuss"])
                        ++ ["Agree"; "Decline"]
             else (if b1 then ["Request"] else []) ++ ["Discuss"])) <->
  x = "Discuss" \/ (x = "Request" /\ b1 = true) \/
  ((x = "Agree" \/ x = "Decline") /\ b3 = true) \/ (x = "Close" /\ c = true).
Proof.
  destruct b1, b3, c; simpl; rewrite ?elem_of_cons, ?elem_of_nil;
    naive_solver.
Qed.

(** Whenever [getStatusOptions(isReply, firstPost, myValue)] returns,
    [Discuss] is offered; [Request] is offered exactly for a new top-level
    post when [myValue] is a non-empty string; [Agree] and [Decline] are
    offered exactly for a reply whose thread's first post has status
    [Request], whoever the current user is. *)
Lemma getStatusOptions_members surveyUser isTC passIfClosed s isReply
    firstPost myValue opts :
  getStatusOptions surveyUser isTC passIfClosed s isReply firstPost myValue
    = Some opts ->
  "Discuss" ∈ opts /\
  ("Request" ∈ opts <->
     isReply = false /\ exists v, myValue = Some v /\ v <> "") /\
  ("Agree" ∈ opts <->
     isReply = true /\
     exists l p, firstPost = Some l /\ heap s !! l = Some p /\ status p = "Request") /\
  ("Decline" ∈ opts <->
     isReply = true /\
     exists l p, firstPost = Some l /\ heap s !! l = Some p /\ status p = "Request").
Proof.
  intros H. unfold getStatusOptions in H.
  destruct (userCanClose surveyUser isTC passIfClosed s isReply firstPost)
    as [c|]; simpl in H; [|discriminate].
  injection H as <-.
  rewrite !status_options_mem, <- (agree_cond_spec surveyUser s isReply firstPost).
  assert ((truthy myValue && negb isReply) = true <->
          isReply = false /\ exists v, myValue = Some v /\ v <> "") as Hreq.
  { rewrite andb_true_iff, negb_true_iff, truthy_spec. tauto. }
  rewrite <- Hreq.
  split_and!; naive_solver.
Qed.

(** C6 (code defect). A user replying in a thread whose first post has
    status [Request] and was posted by that same user (the user's [id] is
    the post's [poster]) is still offered [Agree] and [Decline]:
    [userIsPoster] compares the [surveyUser] object with the numeric
    [poster] by [===], which never holds. *)
Theorem getStatusOptions_poster_offered (u : SurveyUser) isTC passIfClosed s
    (l : loc) (p : Post) myValue opts :
  heap s !! l = Some p ->
  status p = "Request" ->
  surveyUser_id u = poster p ->
  getStatusOptions (Some u) isTC passIfClosed s true (Some l) myValue = Some opts ->
  "Agree" ∈ opts /\ "Decline" ∈ opts.
Proof.
  intros Hp Hst _ H.
  destruct (getStatusOptions_members _ _ _ _ _ _ _ _ H) as (_ & _ & HA & HD).
  rewrite HA, HD. split; split; [done|eauto 6|done|eauto 6].
Qed.

(** Instance of C6: user 1 replies in the thread of post 5, a [Request]
    post of poster 1, and is offered [Agree] and [Decline]. *)
Lemma getStatusOptions_poster_offered_witness :
  heap state59 !! 1%positive = Some post5 /\
  getStatusOptions (Some (mkSurveyUser 1)) false (fun _ _ => false) state59 true
    (Some 1%positive) None = Some ["Discuss"; "Agree"; "Decline"] /\
  "Agree" ∈ ["Discuss"; "Agree"; "Decline"] /\ "Decline" ∈ ["Discuss"; "Agree"; "Decline"].
Proof.
  assert (getStatusOptions (Some (mkSurveyUser 1)) false (fun _ _ => false) state59 true
            (Some 1%positive) None = Some ["Discuss"; "Agree"; "Decline"]) as E
    by reflexivity.
  split; [reflexivity|]. split; [exact E|].
  exact (getStatusOptions_poster_offered (mkSurveyUser 1) false (fun _ _ => false)
           state59 1%positive post5 None _ eq_refl eq_refl eq_refl E).
Defined.

(** C7. When [threadIsClosed(firstPost)] returns [true], [userCanClose]
    returns [false] and [getStatusOptions] returns a set without [Close],
    whoever the current user is and whatever their role. *)
Theorem closed_thread_not_closable surveyUser isTC passIfClosed s isReply
    firstPost myValue :
  threadIsClosed passIfClosed s firstPost = Some true ->
  userCanClose surveyUser isTC passIfClosed s isReply firstPost = Some false /\
  exists opts,
    getStatusOptions surveyUser isTC passIfClosed s isReply firstPost myValue
      = Some opts /\ "Close" ∉ opts.
Proof.
  intros Hc.
  assert (userCanClose surveyUser isTC passIfClosed s isReply firstPost
          = Some false) as Hu.
  { unfold userCanClose. destruct isReply; [|done]. by rewrite Hc. }
  split; [exact Hu|].
  unfold getStatusOptions. rewrite Hu. simpl.
  eexists. split; [reflexivity|].
  rewrite (status_options_mem _ _ false). naive_solver.
Qed.

(** Instance of C7: the original poster (user 1), also a TC member,
    cannot close the closed thread of post 5. *)
Lemma closed_thread_not_closable_witness :
  threadIsClosed (fun _ _ => true) state59 (Some 1%positive) = Some true /\
  userCanClose (Some (mkSurveyUser 1)) true (fun _ _ => true) state59 true (Some 1%positive)
    = Some false.
Proof.
  assert (threadIsClosed (fun _ _ => true) state59 (Some 1%positive) = Some true)
    as Hc by reflexivity.
  split; [exact Hc|].
  exact (proj1 (closed_thread_not_closable (Some (mkSurveyUser 1)) true (fun _ _ => true)
                  state59 true (Some 1%positive) None Hc)).
Defined.

(** ** C8: the subject of a reply *)

Lemma substring_re_prefix (s : string) :
  String.eqb (String.substring 0 3 s) "Re:" = String.prefix "Re:" s.
Proof.
  apply Bool.eq_iff_eq_true. rewrite String.eqb_eq, String.prefix_correct. done.
Qed.

(** C8 (as stated) fails: the subject ["Re:x"] lacks the prefix ["Re: "],
    yet it is returned unchanged. *)
Lemma makePostSubject_re_no_space :
  String.prefix "Re: " "Re:x" = false /\
  makePostSubject true (Some post_rex) "" = "Re:x" /\
  makePostSubject true (Some post_rex) "" <> "Re: " +:+ "Re:x".
Proof. split_and!; [reflexivity|reflexivity|discriminate]. Qed.

(** C8 (amended). For a reply with a parent post, the subject is the
    parent's decoded subject [post2text(parentPost.subject)], prefixed with
    ["Re: "] exactly when it does not already begin with ["Re:"]. *)
Theorem makePostSubject_reply (pp : Post) (subjectParam : string) :
  makePostSubject true (Some pp) subjectParam
  = if String.prefix "Re:" (post2text (subject pp))
    then post2text (subject pp)
    else "Re: " +:+ post2text (subject pp).
Proof.
  unfold makePostSubject. rewrite substring_re_prefix.
  by destruct (String.prefix "Re:" (post2text (subject pp))).
Qed.

(** ** parseContent on small inputs *)

(** The reply post 9 goes into the replies area of post 5, which sits in
    the container of thread "fr|5"; the fragment holds that container. *)
Example parseContent_59 :
  option_map (fun '(s, d, frag) => (childNodes d, parentNode d, frag))
    (parseContent allThreads 10 0 posts59 "info" state59 dom0)
  = Some (<[5%positive := [1%positive]]> (<[3%positive := [4%positive]]>
           (<[4%positive := [2%positive]]> (<[1%positive := [3%positive]]> ∅))),
          <[1%positive := 5%positive]> (<[3%positive := 1%positive]>
           (<[4%positive := 3%positive]> (<[2%positive := 4%positive]> ∅))),
          5%positive).
Proof. vm_compute. reflexivity. Qed.

(** ** The order of first occurrences *)

Lemma elem_of_dedup_first (l : list string) t : t ∈ dedup_first l <-> t ∈ l.
Proof.
  induction l as [|x xs IH]; simpl; [done|].
  rewrite !elem_of_cons, list_elem_of_filter, IH.
  destruct (decide (t = x)); naive_solver.
Qed.

Lemma NoDup_dedup_first (l : list string) : NoDup (dedup_first l).
Proof.
  induction l as [|x xs IH]; simpl; constructor.
  - rewrite list_elem_of_filter. naive_solver.
  - by apply NoDup_filter.
Qed.

Lemma StronglySorted_filter_impl {A} (R R' : A -> A -> Prop) (P : A -> Prop)
    `{!forall a : A, Decision (P a)} (l : list A) :
  StronglySorted R l ->
  (forall a b, P a -> P b -> R a b -> R' a b) ->
  StronglySorted R' (filter P l).
Proof.
  intros Hs HR. induction Hs as [|a l Hs IH Hall]; simpl; [constructor|].
  rewrite filter_cons. case_decide as Ha; [|exact IH].
  constructor; [exact IH|].
  apply Forall_forall. intros b Hb.
  apply list_elem_of_filter in Hb as [Hb Hbl].
  apply HR; [done|done|]. rewrite Forall_forall in Hall. by apply Hall.
Qed.

Lemma first_index_cons_ne (t x : string) xs :
  t <> x -> first_index t (x :: xs) = S (first_index t xs).
Proof.
  intros Hne. simpl. destruct (String.eqb_spec x t); [congruence|done].
Qed.

Lemma dedup_first_sorted (l : list string) :
  StronglySorted (fun a b => (first_index a l < first_index b l)%nat) (dedup_first l).
Proof.
  induction l as [|x xs IH]; cbn [dedup_first]; [constructor|].
  constructor.
  - eapply StronglySorted_filter_impl; [exact IH|].
    intros a b Ha Hb Hab.
    cbv beta in *. rewrite !first_index_cons_ne by done. lia.
  - apply Forall_forall. intros b Hb.
    apply list_elem_of_filter in Hb as [Hb _].
    rewrite (first_index_cons_ne b) by done. simpl. rewrite String.eqb_refl. lia.
Qed.

Lemma threadOrder_props h posts filtered :
  NoDup (threadOrder h posts filtered) /\
  (forall t, t ∈ threadOrder h posts filtered <->
     t ∈ filtered /\ t ∈ threadIdsOf h posts) /\
  StronglySorted
    (fun a b => (first_index a (threadIdsOf h posts)
                 < first_index b (threadIdsOf h posts))%nat)
    (threadOrder h posts filtered).
Proof.
  unfold threadOrder. split_and!.
  - apply NoDup_filter, NoDup_dedup_first.
  - intros t. rewrite list_elem_of_filter, elem_of_dedup_first. done.
  - eapply StronglySorted_filter_impl; [apply dedup_first_sorted|]. auto.
Qed.

(** One step of the selection loop, on the specification side. *)
Lemma filter_dedup_first_cons (t : string) ts (F : list string) :
  filter (fun u : string => u ∈ F) (dedup_first (t :: ts))
  = if decide (t ∈ F)
    then t :: filter (fun u : string => u ∈ filter (fun v : string => v <> t) F) (dedup_first ts)
    else filter (fun u : string => u ∈ F) (dedup_first ts).
Proof.
  simpl. rewrite filter_cons. case_decide as Ht.
  - f_equal. rewrite list_filter_filter. apply list_filter_iff.
    intros y. rewrite list_elem_of_filter. tauto.
  - rewrite list_filter_filter_l; [done|]. intros y Hy ->. done.
Qed.

(** ** The DOM operations *)

Lemma createElement_wf d : dom_wf d -> dom_wf (createElement d).2.
Proof.
  intros [Hp Hc]. split; simpl.
  - intros k v Hk. destruct (Hp k v Hk). lia.
  - intros k cs Hk. specialize (Hc k cs Hk). lia.
Qed.

Lemma appendChild_inv pn c d d' :
  appendChild pn c d = Some d' ->
  nextNode d' = nextNode d /\ parentNode d' = <[c := pn]> (parentNode d).
Proof.
  unfold appendChild. destruct (is_inclusive_ancestor _ _ _ _); [discriminate|].
  intros H. by injection H as <-.
Qed.

Lemma appendChild_wf pn c d d' :
  dom_wf d -> (pn < nextNode d)%positive -> (c < nextNode d)%positive ->
  appendChild pn c d = Some d' -> dom_wf d'.
Proof.
  intros [Hp Hc] Hpn Hcn. unfold appendChild.
  destruct (is_inclusive_ancestor _ _ _ _); [discriminate|].
  intros H. injection H as <-. split; simpl.
  - intros k v. rewrite lookup_insert.
    case_decide; [intros [= <-]; subst; lia|apply Hp].
  - intros k cs. rewrite lookup_insert. case_decide; [intros _; subst; lia|].
    destruct (parentNode d !! c) as [old|] eqn:Eo; [|apply Hc].
    rewrite lookup_insert. case_decide; [intros _; subst|apply Hc].
    destruct (Hp _ _ Eo). lia.
Qed.

(** Appending [c] to a node without a parent never throws. *)
Lemma appendChild_ok pn c d :
  c <> pn -> parentNode d !! pn = None -> exists d', appendChild pn c d = Some d'.
Proof.
  intros Hne Hpn. unfold appendChild.
  replace (is_inclusive_ancestor _ _ c pn) with false; [by eexists|].
  simpl. rewrite decide_False by done. by rewrite Hpn.
Qed.

Lemma appendChild_children pn c d d' :
  appendChild pn c d = Some d' -> parentNode d !! c <> Some pn ->
  default [] (childNodes d' !! pn) = default [] (childNodes d !! pn) ++ [c].
Proof.
  unfold appendChild. destruct (is_inclusive_ancestor _ _ _ _); [discriminate|].
  intros H Hold. injection H as <-. simpl. rewrite lookup_insert_eq. simpl.
  destruct (parentNode d !! c) as [old|] eqn:Eo; [|done].
  rewrite lookup_insert_ne; [done|]. intros ->. done.
Qed.

(** ** Assembling the threads *)

Lemma threadIdsOf_cons h l ls p (t : string) :
  h !! l = Some p -> threadId p = Some t ->
  threadIdsOf h (l :: ls) = t :: threadIdsOf h ls.
Proof. intros Ep Et. unfold threadIdsOf. simpl. rewrite Ep. simpl. by rewrite Et. Qed.

(** The loop only moves the containers of the threads still to be shown
    and nodes it creates itself. *)
Lemma assembleThreads_frame h posts tdivs frag (F : list string) cnt d d' cnt' :
  assembleThreads h posts tdivs frag F cnt d = Some (d', cnt') ->
  (nextNode d <= nextNode d')%positive /\
  forall n, (n < nextNode d)%positive ->
    (forall t, t ∈ F -> tdivs !! t <> Some n) ->
    parentNode d' !! n = parentNode d !! n.
Proof.
  revert F cnt d. induction posts as [|l ls IH]; intros F cnt d H; simpl in H.
  - injection H as <- <-. split; [lia|done].
  - destruct (h !! l) as [p|] eqn:Ep; simpl in H; [|discriminate].
    destruct (threadId p) as [t|] eqn:Et; [|exact (IH _ _ _ H)].
    destruct (decide (t ∈ F)) as [Ht|Ht]; [|exact (IH _ _ _ H)].
    destruct (tdivs !! t) as [td|] eqn:Etd.
    + destruct (appendChild frag td d) as [d1|] eqn:E1; simpl in H; [|discriminate].
      destruct (IH _ _ _ H) as [Hle Hfr].
      destruct (appendChild_inv _ _ _ _ E1) as [Hn Hp].
      split; [lia|]. intros n Hlt HF.
      rewrite Hfr; [|lia|].
      * rewrite Hp, lookup_insert_ne; [done|]. intros ->. by apply (HF t).
      * intros t' Ht'. apply list_elem_of_filter in Ht' as [_ Ht']. by apply HF.
    + cbn [createElement] in H.
      destruct (appendChild frag (nextNode d) _) as [d1|] eqn:E1; simpl in H;
        [|discriminate].
      destruct (IH _ _ _ H) as [Hle Hfr].
      destruct (appendChild_inv _ _ _ _ E1) as [Hn Hp]. simpl in Hn, Hp.
      split; [lia|]. intros n Hlt HF.
      rewrite Hfr; [|lia|].
      * rewrite Hp, lookup_insert_ne; [done|]. intros Heq. subst n. lia.
      * intros t' Ht'. apply list_elem_of_filter in Ht' as [_ Ht']. by apply HF.
Qed.

Lemma assembleThreads_spec h posts tdivs frag (F : list string) cnt d :
  (forall l, l ∈ posts -> exists p t td,
     h !! l = Some p /\ threadId p = Some t /\ tdivs !! t = Some td) ->
  (forall t1 t2 td, tdivs !! t1 = Some td -> tdivs !! t2 = Some td -> t1 = t2) ->
  (forall t td, tdivs !! t = Some td -> td <> frag /\ (td < nextNode d)%positive) ->
  parentNode d !! frag = None ->
  (forall t td, t ∈ F -> tdivs !! t = Some td -> parentNode d !! td <> Some frag) ->
  exists d' cnt' tds,
    assembleThreads h posts tdivs frag F cnt d = Some (d', cnt') /\
    default [] (childNodes d' !! frag) = default [] (childNodes d !! frag) ++ tds /\
    Forall2 (fun t td => tdivs !! t = Some td /\ parentNode d' !! td = Some frag)
      (filter (fun u : string => u ∈ F) (dedup_first (threadIdsOf h posts))) tds /\
    parentNode d' !! frag = None.
Proof.
  intros Hposts Hinj Htd. revert F cnt d Htd.
  induction posts as [|l ls IH]; intros F cnt d Htd Hfrag HF.
  - exists d, cnt, []. split_and!; [done|by rewrite app_nil_r|constructor|done].
  - destruct (Hposts l ltac:(by apply elem_of_cons; left)) as (p & t & td & Ep & Et & Etd).
    assert (forall x, x ∈ ls -> exists p t td,
      h !! x = Some p /\ threadId p = Some t /\ tdivs !! t = Some td) as Hls
      by (intros x Hx; apply Hposts; apply elem_of_cons; by right).
    rewrite (threadIdsOf_cons _ _ _ _ _ Ep Et), filter_dedup_first_cons.
    destruct (decide (t ∈ F)) as [Ht|Ht].
    + destruct (Htd t td Etd) as [Hne Hlt].
      destruct (appendChild_ok frag td d Hne Hfrag) as [d1 E1].
      destruct (appendChild_inv _ _ _ _ E1) as [Hn Hp].
      destruct (IH Hls (filter (fun v : string => v <> t) F) (S cnt) d1)
        as (d' & cnt' & tds & Ha & Hch & Hfa & Hfr).
      * intros t' td' E'. rewrite Hn. by apply Htd with t'.
      * rewrite Hp, lookup_insert_ne; [done|]. intros ->. done.
      * intros t' td' Ht' E'. apply list_elem_of_filter in Ht' as [Hne' Ht'].
        rewrite Hp, lookup_insert_ne; [by apply HF with t'|].
        intros Heq. subst td'. apply Hne'. by apply (Hinj t' t td).
      * exists d', cnt', (td :: tds). split_and!.
        -- simpl. rewrite Ep. simpl. rewrite Et, decide_True by done.
           rewrite Etd, E1. simpl. exact Ha.
        -- rewrite Hch, (appendChild_children _ _ _ _ E1 (HF t td Ht Etd)).
           by rewrite <-app_assoc.
        -- constructor; [|exact Hfa]. split; [done|].
           destruct (assembleThreads_frame _ _ _ _ _ _ _ _ _ Ha) as [_ Hfrm].
           rewrite Hfrm, Hp, lookup_insert_eq; [done|lia|].
           intros t' Ht' E'. apply list_elem_of_filter in Ht' as [Hne' _].
           apply Hne'. by apply (Hinj t' t td).
        -- exact Hfr.
    + destruct (IH Hls F cnt d Htd Hfrag HF) as (d' & cnt' & tds & Ha & Hrest).
      exists d', cnt', tds. split; [|exact Hrest].
      simpl. rewrite Ep. simpl. rewrite Et, decide_False by done. exact Ha.
Qed.

Lemma dom_wf_fresh d n :
  dom_wf d -> (nextNode d <= n)%positive ->
  parentNode d !! n = None /\ childNodes d !! n = None /\
  forall k, parentNode d !! k <> Some n.
Proof.
  intros [Hp Hc] Hn. split_and!.
  - destruct (parentNode d !! n) as [v|] eqn:E; [|done].
    destruct (Hp _ _ E). lia.
  - destruct (childNodes d !! n) as [cs|] eqn:E; [|done].
    specialize (Hc _ _ E). lia.
  - intros k E. destruct (Hp _ _ E). lia.
Qed.

Lemma Forall2_lookup_elem_of {B} (R : string -> B -> Prop) ts (tds : list B) b :
  Forall2 R ts tds -> b ∈ tds -> exists t, t ∈ ts /\ R t b.
Proof.
  induction 1 as [|t b' ts' tds' Hr _ IH]; intros Hb.
  - by apply elem_of_nil in Hb.
  - apply elem_of_cons in Hb as [->|Hb].
    + exists t. split; [apply elem_of_cons; by left|done].
    + destruct (IH Hb) as (t' & Ht' & Hr'). exists t'.
      split; [apply elem_of_cons; by right|done].
Qed.

Lemma Forall2_lookup_NoDup (m : gmap string node) (R : string -> node -> Prop) ts tds :
  (forall t td, R t td -> m !! t = Some td) ->
  (forall t1 t2 td, m !! t1 = Some td -> m !! t2 = Some td -> t1 = t2) ->
  Forall2 R ts tds -> NoDup ts -> NoDup tds.
Proof.
  intros HR Hinj. induction 1 as [|t td ts' tds' Hr Hf IH]; intros Hnd; [constructor|].
  apply NoDup_cons in Hnd as [Hnin Hnd]. constructor; [|by apply IH].
  intros Hin. destruct (Forall2_lookup_elem_of _ _ _ _ Hf Hin) as (t' & Ht' & Hr').
  apply Hnin. by rewrite (Hinj t t' td (HR _ _ Hr) (HR _ _ Hr')).
Qed.

(** ** filterAndAssembleForumThreads *)

Lemma filterAndAssemble_spec (getFilteredThreadIds :
    gmap loc Post -> gmap string (list loc) -> bool -> list string)
    s posts (tdivs : gmap string node) (applyFilter_ showThreadCount_ : bool) d :
  dom_wf d ->
  (forall t td, tdivs !! t = Some td -> (td < nextNode d)%positive) ->
  (forall t1 t2 td, tdivs !! t1 = Some td -> tdivs !! t2 = Some td -> t1 = t2) ->
  (forall l, l ∈ posts -> exists p t td,
     heap s !! l = Some p /\ threadId p = Some t /\ tdivs !! t = Some td) ->
  exists frag d' pre tds,
    filterAndAssembleForumThreads getFilteredThreadIds s posts tdivs
      applyFilter_ showThreadCount_ d = Some (frag, d') /\
    default [] (childNodes d' !! frag) = pre ++ tds /\
    length pre = (if showThreadCount_ then 1 else 0)%nat /\
    (forall n t, n ∈ pre -> tdivs !! t <> Some n) /\
    Forall2 (fun t td => tdivs !! t = Some td /\ parentNode d' !! td = Some frag)
      (threadOrder (heap s) posts
         (getFilteredThreadIds (heap s) (threadHash s) applyFilter_)) tds /\
    NoDup tds /\
    (forall t, t ∈ threadOrder (heap s) posts
                   (getFilteredThreadIds (heap s) (threadHash s) applyFilter_) <->
       t ∈ getFilteredThreadIds (heap s) (threadHash s) applyFilter_ /\
       t ∈ threadIdsOf (heap s) posts) /\
    StronglySorted
      (fun a b => (first_index a (threadIdsOf (heap s) posts)
                   < first_index b (threadIdsOf (heap s) posts))%nat)
      (threadOrder (heap s) posts
         (getFilteredThreadIds (heap s) (threadHash s) applyFilter_)).
Proof.
  intros Hwf Hlt Hinj Hposts.
  set (F := getFilteredThreadIds (heap s) (threadHash s) applyFilter_).
  destruct (threadOrder_props (heap s) posts F) as (Hnd & Hmem & Hsort).
  set (N := nextNode d).
  destruct (dom_wf_fresh d N Hwf ltac:(unfold N; lia)) as (HpN & HcN & HkN).
  assert (exists d2 pre,
    (if showThreadCount_ then
       appendChild N (Pos.succ N)
         (mkDom (Pos.succ (Pos.succ N)) (parentNode d) (childNodes d))
     else Some (mkDom (Pos.succ N) (parentNode d) (childNodes d))) = Some d2 /\
    (N < nextNode d2)%positive /\
    length pre = (if showThreadCount_ then 1 else 0)%nat /\
    (forall n, n ∈ pre -> (N < n)%positive) /\
    default [] (childNodes d2 !! N) = pre /\
    parentNode d2 !! N = None /\
    (forall n, (n < N)%positive -> parentNode d2 !! n = parentNode d !! n))
    as (d2 & pre & E2 & HN2 & Hlen & Hpre & Hch2 & Hp2 & Hfr2).
  { destruct showThreadCount_.
    - set (d1 := mkDom (Pos.succ (Pos.succ N)) (parentNode d) (childNodes d)).
      assert (parentNode d1 !! N = None) as HpN1 by exact HpN.
      destruct (appendChild_ok N (Pos.succ N) d1 ltac:(lia) HpN1) as [d2 E2].
      destruct (appendChild_inv _ _ _ _ E2) as [Hn Hp].
      exists d2, [Pos.succ N]. split_and!.
      + exact E2.
      + rewrite Hn. simpl. lia.
      + done.
      + intros n Hn'. apply list_elem_of_singleton in Hn' as ->. lia.
      + rewrite (appendChild_children _ _ _ _ E2); [|apply HkN].
        change (childNodes d1) with (childNodes d). by rewrite HcN.
      + rewrite Hp, lookup_insert_ne; [exact HpN|lia].
      + intros n Hn'. rewrite Hp, lookup_insert_ne; [done|lia].
    - exists (mkDom (Pos.succ N) (parentNode d) (childNodes d)), [].
      split_and!; simpl; try done; try lia;
        [intros n Hn; by apply elem_of_nil in Hn|].
      destruct (childNodes d !! N) eqn:X; [congruence|done]. }
  destruct (assembleThreads_spec (heap s) posts tdivs N F 0 d2 Hposts Hinj)
    as (d' & cnt' & tds & Ha & Hch & Hfa & _).
  { intros t td E. specialize (Hlt t td E). split; [unfold N in *; lia|lia]. }
  { exact Hp2. }
  { intros t td _ E. specialize (Hlt t td E). rewrite Hfr2 by exact Hlt. apply HkN. }
  exists N, d', pre, tds. split_and!.
  - unfold filterAndAssembleForumThreads. fold F.
    cbn [createElement fst snd nextNode parentNode childNodes]. fold N.
    destruct showThreadCount_; rewrite E2; simpl; rewrite Ha; done.
  - by rewrite Hch, Hch2.
  - exact Hlen.
  - intros n t Hn E. specialize (Hpre n Hn). specialize (Hlt t n E).
    unfold N in *. lia.
  - exact Hfa.
  - eapply (Forall2_lookup_NoDup tdivs); [|exact Hinj|exact Hfa|exact Hnd].
    intros t td [E _]. exact E.
  - exact Hmem.
  - exact Hsort.
Qed.

(** The fragment is a fresh node; only thread containers and fresh nodes
    are moved. *)
Lemma filterAndAssemble_frame getFilteredThreadIds s posts (tdivs : gmap string node)
    (applyFilter_ showThreadCount_ : bool) d frag d' :
  filterAndAssembleForumThreads getFilteredThreadIds s posts tdivs
    applyFilter_ showThreadCount_ d = Some (frag, d') ->
  frag = nextNode d /\
  forall n, (n < nextNode d)%positive -> (forall t, tdivs !! t <> Some n) ->
    parentNode d' !! n = parentNode d !! n.
Proof.
  unfold filterAndAssembleForumThreads.
  cbn [createElement fst snd nextNode parentNode childNodes].
  set (N := nextNode d).
  intros H.
  assert (exists d2, (if showThreadCount_ then
      appendChild N (Pos.succ N) (mkDom (Pos.succ (Pos.succ N)) (parentNode d) (childNodes d))
    else Some (mkDom (Pos.succ N) (parentNode d) (childNodes d))) = Some d2 /\
    (N < nextNode d2)%positive /\
    forall n, (n < N)%positive -> parentNode d2 !! n = parentNode d !! n)
    as (d2 & E2 & Hn2 & Hfr2).
  { destruct showThreadCount_.
    - destruct (appendChild N (Pos.succ N) _) as [d2|] eqn:E2; simpl in H; [|discriminate].
      destruct (appendChild_inv _ _ _ _ E2) as [Hn Hp]. simpl in Hn.
      exists d2. split_and!; [done|lia|]. intros n Hn'. rewrite Hp, lookup_insert_ne; [done|lia].
    - eexists. split_and!; [done|simpl; lia|done]. }
  rewrite E2 in H. simpl in H.
  destruct (assembleThreads _ _ _ _ _ _ _) as [[d3 cnt]|] eqn:E3; simpl in H; [|discriminate].
  injection H as <- <-. split; [done|].
  destruct (assembleThreads_frame _ _ _ _ _ _ _ _ _ E3) as [_ Hfr3].
  intros n Hn Ht. rewrite Hfr3; [by apply Hfr2|lia|]. intros t _. apply Ht.
Qed.

(** ** C5: the assembled threads, once each, newest first *)

(** C5. Given a DOM, thread containers [tdivs] (distinct nodes already
    allocated) and a post list whose posts all carry a thread id with a
    container, [filterAndAssembleForumThreads] returns a fresh fragment
    whose children are the optional thread-count heading followed by the
    containers of [threadOrder]: the threads that pass the filter, each
    exactly once, sorted by the position of their first (newest) post in
    the input list. *)
Theorem filterAndAssemble_thread_order (getFilteredThreadIds :
    gmap loc Post -> gmap string (list loc) -> bool -> list string)
    s posts (tdivs : gmap string node) (applyFilter_ showThreadCount_ : bool) d :
  dom_wf d ->
  (forall t td, tdivs !! t = Some td -> (td < nextNode d)%positive) ->
  (forall t1 t2 td, tdivs !! t1 = Some td -> tdivs !! t2 = Some td -> t1 = t2) ->
  (forall l, l ∈ posts -> exists p t td,
     heap s !! l = Some p /\ threadId p = Some t /\ tdivs !! t = Some td) ->
  exists frag d' pre tds,
    filterAndAssembleForumThreads getFilteredThreadIds s posts tdivs
      applyFilter_ showThreadCount_ d = Some (frag, d') /\
    default [] (childNodes d' !! frag) = pre ++ tds /\
    length pre = (if showThreadCount_ then 1 else 0)%nat /\
    (forall n t, n ∈ pre -> tdivs !! t <> Some n) /\
    Forall2 (fun t td => tdivs !! t = Some td /\ parentNode d' !! td = Some frag)
      (threadOrder (heap s) posts
         (getFilteredThreadIds (heap s) (threadHash s) applyFilter_)) tds /\
    NoDup tds /\
    (forall t, t ∈ threadOrder (heap s) posts
                   (getFilteredThreadIds (heap s) (threadHash s) applyFilter_) <->
       t ∈ getFilteredThreadIds (heap s) (threadHash s) applyFilter_ /\
       t ∈ threadIdsOf (heap s) posts) /\
    StronglySorted
      (fun a b => (first_index a (threadIdsOf (heap s) posts)
                   < first_index b (threadIdsOf (heap s) posts))%nat)
      (threadOrder (heap s) posts
         (getFilteredThreadIds (heap s) (threadHash s) applyFilter_)).
Proof.
  intros Hwf Hlt Hinj Hposts.
  exact (filterAndAssemble_spec getFilteredThreadIds s posts tdivs applyFilter_
           showThreadCount_ d Hwf Hlt Hinj Hposts).
Qed.

Example filterAndAssemble_3 :
  option_map (fun '(frag, d) => (frag, childNodes d !! frag))
    (filterAndAssembleForumThreads allThreads state3 posts3 tdivs3 false true dom3)
  = Some (3%positive, Some [4%positive; 1%positive; 2%positive]).
Proof. vm_compute. reflexivity. Qed.

Lemma filterAndAssemble_thread_order_witness :
  (dom_wf dom3 /\
   (forall t td, tdivs3 !! t = Some td -> (td < nextNode dom3)%positive) /\
   (forall t1 t2 td, tdivs3 !! t1 = Some td -> tdivs3 !! t2 = Some td -> t1 = t2) /\
   (forall l, l ∈ posts3 -> exists p t td,
      heap state3 !! l = Some p /\ threadId p = Some t /\ tdivs3 !! t = Some td)) /\
  exists frag d' pre tds,
    filterAndAssembleForumThreads allThreads state3 posts3 tdivs3 false true dom3
      = Some (frag, d') /\
    default [] (childNodes d' !! frag) = pre ++ tds /\
    Forall2 (fun t td => tdivs3 !! t = Some td /\ parentNode d' !! td = Some frag)
      (threadOrder heap3 posts3 (allThreads heap3 (threadHash state3) false)) tds.
Proof.
  assert (dom_wf dom3) as H1.
  { split; intros k v Hk; simpl in Hk; by rewrite lookup_empty in Hk. }
  assert (forall t td, tdivs3 !! t = Some td ->
            (t = "fr|5" /\ td = 1%positive) \/ (t = "fr|7" /\ td = 2%positive)) as Htd.
  { intros t td E. unfold tdivs3 in E.
    rewrite !lookup_insert_Some, lookup_empty in E. naive_solver. }
  assert (forall t td, tdivs3 !! t = Some td -> (td < nextNode dom3)%positive) as H2.
  { intros t td E. destruct (Htd t td E) as [[_ ->]|[_ ->]]; simpl; lia. }
  assert (forall t1 t2 td, tdivs3 !! t1 = Some td -> tdivs3 !! t2 = Some td -> t1 = t2)
    as H3.
  { intros t1 t2 td E1 E2.
    destruct (Htd _ _ E1) as [[-> ->]|[-> ->]], (Htd _ _ E2) as [[-> ?]|[-> ?]];
      congruence. }
  assert (forall l, l ∈ posts3 -> exists p t td,
      heap state3 !! l = Some p /\ threadId p = Some t /\ tdivs3 !! t = Some td) as H4.
  { intros l Hl. unfold posts3 in Hl.
    repeat (apply elem_of_cons in Hl as [->|Hl]).
    - exists post9t, "fr|5", 1%positive. split_and!; vm_compute; reflexivity.
    - exists post7t, "fr|7", 2%positive. split_and!; vm_compute; reflexivity.
    - exists post5t, "fr|5", 1%positive. split_and!; vm_compute; reflexivity.
    - by apply elem_of_nil in Hl. }
  split; [done|].
  destruct (filterAndAssemble_thread_order allThreads state3 posts3 tdivs3 false true
              dom3 H1 H2 H3 H4)
    as (frag & d' & pre & tds & E & Hch & _ & _ & Hfa & _).
  exists frag, d', pre, tds. split_and!; [exact E|exact Hch|exact Hfa].
Defined.

(** ** The three loops of parseContent *)

Lemma updateForumData_threadIds fuel now posts fs s s1 :
  updateForumData fuel now posts fs s = Some s1 ->
  forall l, l ∈ posts -> exists p (t : string), heap s1 !! l = Some p /\ threadId p = Some t.
Proof.
  intros H. run_updateForumData H. intros l Hl.
  destruct (addThreadIds_spec _ _ _ _ _ Eh l Hl) as (p & r & pr & Ep & _ & _ & Et).
  by exists p, (makeThreadId pr).
Qed.

Lemma dom_wf_mono d n :
  dom_wf d -> (nextNode d <= n)%positive ->
  dom_wf (mkDom n (parentNode d) (childNodes d)).
Proof.
  intros [Hp Hc] Hn. split; simpl.
  - intros k v Hk. destruct (Hp k v Hk). lia.
  - intros k cs Hk. specialize (Hc k cs Hk). lia.
Qed.

(** A thread container, with its [topicInfo] heading when [showItemLink]. *)
Lemma topicDiv_alloc (b : bool) d d2 :
  dom_wf d ->
  (if b then
     appendChild (nextNode d) (Pos.succ (nextNode d))
       (mkDom (Pos.succ (Pos.succ (nextNode d))) (parentNode d) (childNodes d))
   else Some (mkDom (Pos.succ (nextNode d)) (parentNode d) (childNodes d)))
  = Some d2 ->
  dom_wf d2 /\ (Pos.succ (nextNode d) <= nextNode d2)%positive /\
  forall n, (n <= nextNode d)%positive -> parentNode d2 !! n = parentNode d !! n.
Proof.
  intros Hwf E. destruct b.
  - destruct (appendChild_inv _ _ _ _ E) as [Hn Hp]. simpl in Hn. split_and!.
    + refine (appendChild_wf _ _ _ _ _ _ _ E); [apply dom_wf_mono; [exact Hwf|simpl; lia]|simpl; lia|simpl; lia].
    + lia.
    + intros n Hle. rewrite Hp, lookup_insert_ne; [done|lia].
  - injection E as <-. split_and!; [apply dom_wf_mono; [exact Hwf|lia]|simpl; lia|done].
Qed.

Lemma createTopicDivs_spec opts h posts pc pc' :
  createTopicDivs opts h posts pc = Some pc' ->
  dom_wf (dom pc) ->
  (forall t td, topicDivs pc !! t = Some td ->
     (td < nextNode (dom pc))%positive /\ parentNode (dom pc) !! td = None) ->
  map_inj (topicDivs pc) ->
  dom_wf (dom pc') /\ (nextNode (dom pc) <= nextNode (dom pc'))%positive /\
  postDivs pc' = postDivs pc /\ repliesOf pc' = repliesOf pc /\
  (forall t td, topicDivs pc' !! t = Some td ->
     (td < nextNode (dom pc'))%positive /\ parentNode (dom pc') !! td = None) /\
  map_inj (topicDivs pc') /\
  (forall t, is_Some (topicDivs pc !! t) -> is_Some (topicDivs pc' !! t)) /\
  (forall l, l ∈ posts -> exists p, h !! l = Some p /\
     is_Some (topicDivs pc' !! tid_key (threadId p))).
Proof.
  revert pc. induction posts as [|l ls IH]; intros pc H Hwf Htd Hinj; simpl in H.
  - injection H as <-. split_and!; auto; [lia|].
    intros l Hl. by apply elem_of_nil in Hl.
  - destruct (h !! l) as [p|] eqn:Ep; simpl in H; [|discriminate].
    destruct (topicDivs pc !! tid_key (threadId p)) as [td0|] eqn:Et.
    + destruct (IH pc H Hwf Htd Hinj) as (Hwf' & Hle & Hpd & Hr & Htd' & Hinj' & Hmono & Hcov).
      split_and!; try done.
      intros x Hx. apply elem_of_cons in Hx as [->|Hx]; [|by apply Hcov].
      exists p. split; [done|]. apply Hmono. by rewrite Et.
    + cbn [createElement fst snd nextNode parentNode childNodes] in H.
      set (N := nextNode (dom pc)) in H.
      destruct (if showItemLink opts then _ else _) as [d2|] eqn:E2 in H;
        simpl in H; [|discriminate].
      destruct (topicDiv_alloc _ _ _ Hwf E2) as (Hwf2 & Hn2 & Hp2).
      fold N in Hn2, Hp2.
      destruct (dom_wf_fresh (dom pc) N Hwf ltac:(unfold N; lia)) as (HpN & _ & _).
      destruct (IH _ H) as (Hwf' & Hle & Hpd & Hr & Htd' & Hinj' & Hmono & Hcov);
        simpl.
      * exact Hwf2.
      * intros t td. rewrite lookup_insert. case_decide.
        -- intros [= <-]. split; [lia|]. rewrite Hp2; [exact HpN|lia].
        -- intros E. destruct (Htd t td E) as [Hlt Hnone].
           split; [lia|]. rewrite Hp2; [exact Hnone|unfold N; lia].
      * intros k1 k2 v. rewrite !lookup_insert.
        case_decide as Hk1; case_decide as Hk2; intros E1 E2'.
        -- congruence.
        -- injection E1 as <-. destruct (Htd _ _ E2'). unfold N in *. lia.
        -- injection E2' as <-. destruct (Htd _ _ E1). unfold N in *. lia.
        -- by apply (Hinj k1 k2 v).
      * simpl in *. split_and!; try done; [lia| |].
        -- intros t Ht. apply Hmono. rewrite lookup_insert. case_decide; [done|exact Ht].
        -- intros x Hx. apply elem_of_cons in Hx as [->|Hx]; [|by apply Hcov].
           exists p. split; [done|]. apply Hmono. by rewrite lookup_insert_eq.
Qed.

Lemma postIds_cons h l ls p :
  h !! l = Some p -> postIds h (l :: ls) = id p :: postIds h ls.
Proof. intros Ep. unfold postIds. simpl. by rewrite Ep. Qed.

Lemma createPostDivs_spec h posts pc pc' (nA : node) :
  createPostDivs h posts pc = Some pc' ->
  dom_wf (dom pc) -> (nA <= nextNode (dom pc))%positive ->
  (forall k v, postDivs pc !! k = Some v ->
     (nA <= v)%positive /\ (v < nextNode (dom pc))%positive) ->
  map_inj (postDivs pc) ->
  dom_wf (dom pc') /\ (nextNode (dom pc) <= nextNode (dom pc'))%positive /\
  topicDivs pc' = topicDivs pc /\ repliesOf pc' = repliesOf pc /\
  parentNode (dom pc') = parentNode (dom pc) /\
  (forall k v, postDivs pc' !! k = Some v ->
     (nA <= v)%positive /\ (v < nextNode (dom pc'))%positive) /\
  map_inj (postDivs pc') /\
  (forall k, is_Some (postDivs pc' !! k) -> k ∈ postIds h posts \/ is_Some (postDivs pc !! k)) /\
  (forall k, is_Some (postDivs pc !! k) -> is_Some (postDivs pc' !! k)) /\
  (forall l, l ∈ posts -> exists p, h !! l = Some p /\ is_Some (postDivs pc' !! id p)).
Proof.
  revert pc. induction posts as [|l ls IH]; intros pc H Hwf HnA Hpd Hinj; simpl in H.
  - injection H as <-. split_and!; auto; [lia|].
    intros l Hl. by apply elem_of_nil in Hl.
  - destruct (h !! l) as [p|] eqn:Ep; simpl in H; [|discriminate].
    cbn [createElement fst snd nextNode parentNode childNodes] in H.
    set (N := nextNode (dom pc)) in H.
    destruct (IH _ H) as (Hwf' & Hle & Htd & Hr & Hpar & Hpd' & Hinj' & Hkeys & Hmono & Hcov).
    + simpl. apply dom_wf_mono; [exact Hwf|unfold N; lia].
    + simpl. unfold N. lia.
    + simpl. intros k v. rewrite lookup_insert. case_decide.
      * intros [= <-]. unfold N. lia.
      * intros E. destruct (Hpd k v E). unfold N. lia.
    + simpl. intros k1 k2 v. rewrite !lookup_insert.
      case_decide as Hk1; case_decide as Hk2; intros E1 E2'.
      * congruence.
      * injection E1 as <-. destruct (Hpd _ _ E2'). unfold N in *. lia.
      * injection E2' as <-. destruct (Hpd _ _ E1). unfold N in *. lia.
      * by apply (Hinj k1 k2 v).
    + rewrite (postIds_cons _ _ _ _ Ep). simpl in *. split_and!; try done; [lia| | |].
      * intros k Hk. destruct (Hkeys k Hk) as [Hin|Hs]; [left; by apply elem_of_cons; right|].
        rewrite lookup_insert in Hs. case_decide; [left; by apply elem_of_cons; left|by right].
      * intros k Hk. apply Hmono. rewrite lookup_insert. case_decide; [done|exact Hk].
      * intros x Hx. apply elem_of_cons in Hx as [->|Hx]; [|by apply Hcov].
        exists p. split; [done|]. apply Hmono. by rewrite lookup_insert_eq.
Qed.

(** Moving a post node [c] under an existing node [x]. *)
Lemma pc_ok_append nA pc x c d1 :
  pc_ok nA pc -> (x < nextNode (dom pc))%positive ->
  (nA <= c)%positive -> (c < nextNode (dom pc))%positive ->
  appendChild x c (dom pc) = Some d1 ->
  pc_ok nA (set_dom d1 pc) /\ nextNode d1 = nextNode (dom pc) /\
  forall n, n <> c -> parentNode d1 !! n = parentNode (dom pc) !! n.
Proof.
  intros (Hwf & HnA & Htd & Hpd & Hr) Hx HcA HcN E.
  destruct (appendChild_inv _ _ _ _ E) as [Hn Hp].
  assert (forall n, n <> c -> parentNode d1 !! n = parentNode (dom pc) !! n) as Hfr
    by (intros n Hne; rewrite Hp, lookup_insert_ne; [done|congruence]).
  split_and!; [|done|exact Hfr].
  unfold pc_ok, set_dom; simpl. rewrite Hn. split_and!; try done.
  - exact (appendChild_wf _ _ _ _ Hwf Hx HcN E).
  - intros t td Et. destruct (Htd t td Et) as [Hlt Hnone].
    split; [done|]. rewrite Hfr; [done|]. intros ->. lia.
Qed.

Lemma reparentOne_spec nA h l pc pc' :
  reparentOne h l pc = Some pc' -> pc_ok nA pc ->
  pc_ok nA pc' /\ topicDivs pc' = topicDivs pc /\ postDivs pc' = postDivs pc /\
  (nextNode (dom pc) <= nextNode (dom pc'))%positive /\
  exists p c, h !! l = Some p /\ postDivs pc !! id p = Some c /\
    forall n, n <> c -> (n < nextNode (dom pc))%positive ->
      parentNode (dom pc') !! n = parentNode (dom pc) !! n.
Proof.
  intros H Hok. pose proof Hok as (Hwf & HnA & Htd & Hpd & Hr).
  unfold reparentOne in H.
  destruct (h !! l) as [p|] eqn:Ep; simpl in H; [|discriminate].
  destruct (postDivs pc !! id p) as [c|] eqn:Ec; simpl in H; [|discriminate].
  destruct (Hpd _ _ Ec) as [HcA HcN].
  assert (forall pc'',
    (td ← topicDivs pc !! tid_key (threadId p);
     d1 ← appendChild td c (dom pc); Some (set_dom d1 pc)) = Some pc'' ->
    pc_ok nA pc'' /\ topicDivs pc'' = topicDivs pc /\ postDivs pc'' = postDivs pc /\
    (nextNode (dom pc) <= nextNode (dom pc''))%positive /\
    exists p' c', h !! l = Some p' /\ postDivs pc !! id p' = Some c' /\
      forall n, n <> c' -> (n < nextNode (dom pc))%positive ->
        parentNode (dom pc'') !! n = parentNode (dom pc) !! n) as Hto.
  { intros pc'' H'.
    destruct (topicDivs pc !! tid_key (threadId p)) as [td|] eqn:Et; simpl in H';
      [|discriminate].
    destruct (appendChild td c (dom pc)) as [d1|] eqn:E1; simpl in H'; [|discriminate].
    injection H' as <-. destruct (Htd _ _ Et) as [HtdA _].
    destruct (pc_ok_append nA pc td c d1 Hok ltac:(lia) HcA HcN E1) as (Hok' & Hn & Hfr).
    split_and!; [done|done|done|simpl; lia|].
    exists p, c. split_and!; [done|done|]. intros n Hne _. by apply Hfr. }
  destruct (bool_decide (parent p <> -1)); [|rewrite <-Ep; exact (Hto _ H)].
  destruct (postDivs pc !! parent p) as [pd|] eqn:Epd; [|rewrite <-Ep; exact (Hto _ H)].
  destruct (Hpd _ _ Epd) as [_ HpdN].
  destruct (repliesOf pc !! pd) as [r|] eqn:Er.
  - destruct (appendChild r c (dom pc)) as [d1|] eqn:E1; simpl in H; [|discriminate].
    injection H as <-.
    destruct (pc_ok_append nA pc r c d1 Hok (Hr _ _ Er) HcA HcN E1) as (Hok' & Hn & Hfr).
    split_and!; [done|done|done|simpl; lia|].
    exists p, c. split_and!; [done|done|]. intros n Hne _. by apply Hfr.
  - cbn [createElement fst snd nextNode parentNode childNodes] in H.
    set (N := nextNode (dom pc)) in *.
    destruct (appendChild pd N _) as [d2|] eqn:E2; simpl in H; [|discriminate].
    destruct (appendChild N c d2) as [d3|] eqn:E3; simpl in H; [|discriminate].
    injection H as <-.
    destruct (appendChild_inv _ _ _ _ E2) as [Hn2 Hp2]. simpl in Hn2.
    destruct (appendChild_inv _ _ _ _ E3) as [Hn3 Hp3].
    assert (forall n, n <> c -> (n < N)%positive -> parentNode d3 !! n = parentNode (dom pc) !! n)
      as Hfr.
    { intros n Hne Hlt. rewrite Hp3, lookup_insert_ne by congruence.
      rewrite Hp2, lookup_insert_ne; [done|]. intros ->. lia. }
    split_and!; [|done|done|simpl; lia|].
    + unfold pc_ok; simpl. rewrite Hn3, Hn2. split_and!.
      * refine (appendChild_wf _ _ _ _ _ _ _ E3); [|lia|lia].
        refine (appendChild_wf _ _ _ _ _ _ _ E2); [|simpl; lia|simpl; lia].
        apply dom_wf_mono; [exact Hwf|simpl; lia].
      * lia.
      * intros t td Et. destruct (Htd t td Et) as [Hlt Hnone].
        split; [done|]. rewrite Hfr; [done| |lia]. intros ->. lia.
      * intros k v Ek. destruct (Hpd k v Ek). lia.
      * intros k v. rewrite lookup_insert. case_decide; [intros [= <-]; lia|].
        intros Ek. specialize (Hr k v Ek). lia.
    + exists p, c. split_and!; [done|done|]. exact Hfr.
Qed.

Lemma reparent_spec nA h ls pc pc' :
  reparent h ls pc = Some pc' -> pc_ok nA pc ->
  pc_ok nA pc' /\ topicDivs pc' = topicDivs pc /\ postDivs pc' = postDivs pc /\
  (nextNode (dom pc) <= nextNode (dom pc'))%positive /\
  forall n, (n < nextNode (dom pc))%positive ->
    (forall l p, l ∈ ls -> h !! l = Some p -> postDivs pc !! id p <> Some n) ->
    parentNode (dom pc') !! n = parentNode (dom pc) !! n.
Proof.
  revert pc. induction ls as [|l ls IH]; intros pc H Hok; simpl in H.
  - injection H as <-. split_and!; auto; lia.
  - destruct (reparentOne h l pc) as [pc1|] eqn:E1; simpl in H; [|discriminate].
    destruct (reparentOne_spec nA h l pc pc1 E1 Hok)
      as (Hok1 & Htd1 & Hpd1 & Hle1 & p & c & Ep & Ec & Hfr1).
    destruct (IH pc1 H Hok1) as (Hok' & Htd' & Hpd' & Hle' & Hfr').
    split_and!; [done|congruence|congruence|lia|].
    intros n Hn Hnot. rewrite Hfr'.
    + apply Hfr1; [|done]. intros ->. apply (Hnot l p); [by apply elem_of_cons; left|done|done].
    + lia.
    + intros x q Hx Eq. rewrite Hpd1. apply Hnot with x; [by apply elem_of_cons; right|done].
Qed.

Lemma reparent_app h pre rest pc :
  reparent h (pre ++ rest) pc = reparent h pre pc ≫= reparent h rest.
Proof.
  revert pc. induction pre as [|l pre IH]; intros pc; simpl; [done|].
  destruct (reparentOne h l pc); simpl; [apply IH|done].
Qed.

Lemma Forall2_elem_of_l {B} (R : string -> B -> Prop) ts (tds : list B) t :
  Forall2 R ts tds -> t ∈ ts -> exists b, b ∈ tds /\ R t b.
Proof.
  induction 1 as [|t' b ts' tds' Hr _ IH]; intros Ht.
  - by apply elem_of_nil in Ht.
  - apply elem_of_cons in Ht as [->|Ht].
    + exists b. split; [apply elem_of_cons; by left|done].
    + destruct (IH Ht) as (b' & Hb' & Hr'). exists b'.
      split; [apply elem_of_cons; by right|done].
Qed.

(** ** C4: a reply whose parent is not shown goes into its thread's container *)

(** C4. Let [parseContent] index the posts ([s1]) and create the thread
    containers ([pc1]) and the post nodes ([pc2]), starting from a
    well-formed DOM.  For a post [p] of the list whose [parent] is not -1
    and is the id of no post of the list (so [postDivs[post.parent]] is
    undefined), the post's node [child] and its thread container [td]
    exist, and:
    - whenever the reparenting loop reaches [p], its step does not throw
      and leaves [child] directly under [td];
    - if the post ids are distinct, in the DOM returned by [parseContent]
      [child] is still directly under [td], and [td] is in the returned
      fragment whenever the thread passes the filter. *)
Theorem parseContent_orphan_attached getFilteredThreadIds fuel now posts
    (context : string) s d s1 pc1 pc2 l p :
  dom_wf d ->
  updateForumData fuel now posts (fullSet (getOptionsForContext context)) s = Some s1 ->
  createTopicDivs (getOptionsForContext context) (heap s1) posts (mkPC d ∅ ∅ ∅) = Some pc1 ->
  createPostDivs (heap s1) posts pc1 = Some pc2 ->
  l ∈ posts -> heap s1 !! l = Some p ->
  parent p <> -1 -> parent p ∉ postIds (heap s1) posts ->
  exists child td,
    postDivs pc2 !! id p = Some child /\ postDivs pc2 !! parent p = None /\
    topicDivs pc2 !! tid_key (threadId p) = Some td /\
    (forall pre rest pcm, posts = pre ++ l :: rest ->
       reparent (heap s1) pre pc2 = Some pcm ->
       exists pcn, reparentOne (heap s1) l pcm = Some pcn /\
         parentNode (dom pcn) !! child = Some td) /\
    (NoDup (postIds (heap s1) posts) ->
     forall s' d' frag,
       parseContent getFilteredThreadIds fuel now posts context s d = Some (s', d', frag) ->
       parentNode d' !! child = Some td /\
       (tid_key (threadId p) ∈ getFilteredThreadIds (heap s1) (threadHash s1)
          (applyFilter (getOptionsForContext context)) ->
        parentNode d' !! td = Some frag)).
Proof.
  intros Hwf Eu Ec1 Ec2 Hl Ep Hpar Hnotin.
  set (opts := getOptionsForContext context) in *.
  destruct (createTopicDivs_spec _ _ _ _ _ Ec1)
    as (Hwf1 & Hle1 & Hpd1 & Hr1 & Htd1 & Hinj1 & _ & Hcov1); simpl.
  { exact Hwf. }
  { intros t td E. by rewrite lookup_empty in E. }
  { intros k1 k2 v E. by rewrite lookup_empty in E. }
  simpl in Hpd1, Hr1.
  set (nA := nextNode (dom pc1)) in *.
  destruct (createPostDivs_spec _ _ _ _ nA Ec2 Hwf1 ltac:(unfold nA; lia))
    as (Hwf2 & Hle2 & Htd2 & Hr2 & Hpar2 & Hpd2 & Hinj2 & Hkeys2 & _ & Hcov2).
  { rewrite Hpd1. intros k v E. by rewrite lookup_empty in E. }
  { rewrite Hpd1. intros k1 k2 v E. by rewrite lookup_empty in E. }
  assert (pc_ok nA pc2) as Hok2.
  { split_and!; [done|done| | |].
    - intros t td E. rewrite Htd2 in E. destruct (Htd1 t td E) as [Hlt Hnone].
      split; [exact Hlt|]. by rewrite Hpar2.
    - exact Hpd2.
    - intros k v E. rewrite Hr2, Hr1, lookup_empty in E. discriminate. }
  destruct (Hcov2 l Hl) as (p' & Ep' & [child Echild]).
  rewrite Ep in Ep'. injection Ep' as <-.
  destruct (Hcov1 l Hl) as (p' & Ep' & [td Etd]).
  rewrite Ep in Ep'. injection Ep' as <-.
  rewrite <-Htd2 in Etd.
  destruct (Hpd2 _ _ Echild) as [HchA HchN].
  destruct (Hok2) as (_ & _ & Htdok & _ & _).
  destruct (Htdok _ _ Etd) as [HtdA _].
  assert (postDivs pc2 !! parent p = None) as Eparent.
  { destruct (postDivs pc2 !! parent p) as [v|] eqn:E; [|done].
    destruct (Hkeys2 (parent p) ltac:(by rewrite E)) as [Hin|Hs]; [done|].
    rewrite Hpd1, lookup_empty in Hs. by destruct Hs. }
  assert (forall pre rest pcm, posts = pre ++ l :: rest ->
       reparent (heap s1) pre pc2 = Some pcm ->
       exists pcn, reparentOne (heap s1) l pcm = Some pcn /\
         parentNode (dom pcn) !! child = Some td) as HB.
  { intros pre rest pcm _ Hpre.
    destruct (reparent_spec nA _ _ _ _ Hpre Hok2)
      as ((_ & _ & Htdm & _ & _) & Htdm' & Hpdm & Hlem & _).
    assert (parentNode (dom pcm) !! td = None) as Hnone.
    { rewrite <-Htdm' in Etd. by destruct (Htdm _ _ Etd). }
    destruct (appendChild_ok td child (dom pcm) ltac:(intros ->; lia) Hnone) as [d1 E1].
    exists (set_dom d1 pcm). split.
    - unfold reparentOne. rewrite Ep. simpl. rewrite Hpdm, Echild. simpl.
      rewrite bool_decide_eq_true_2 by done. rewrite Eparent, Htdm', Etd. simpl.
      by rewrite E1.
    - destruct (appendChild_inv _ _ _ _ E1) as [_ Hp1]. simpl.
      by rewrite Hp1, lookup_insert_eq. }
  exists child, td. split_and!; [done|done|done|exact HB|].
  intros Hnd s' d' frag Hpc.
  unfold parseContent in Hpc. fold opts in Hpc.
  rewrite Eu in Hpc. simpl in Hpc. rewrite Ec1 in Hpc. simpl in Hpc.
  rewrite Ec2 in Hpc. simpl in Hpc.
  destruct (reparent (heap s1) posts pc2) as [pc3|] eqn:E3; simpl in Hpc; [|discriminate].
  destruct (filterAndAssembleForumThreads _ _ _ _ _ _ _) as [[frag' d4]|] eqn:E4;
    simpl in Hpc; [|discriminate].
  injection Hpc as <- <- <-.
  destruct (list_elem_of_split _ _ Hl) as (pre & rest & Hsplit).
  rewrite Hsplit, reparent_app in E3.
  destruct (reparent (heap s1) pre pc2) as [pcm|] eqn:Em; simpl in E3; [|discriminate].
  destruct (HB pre rest pcm Hsplit Em) as (pcn & En & Hchn).
  rewrite En in E3. simpl in E3.
  destruct (reparent_spec nA _ _ _ _ Em Hok2) as (Hokm & Htdm & Hpdm & Hlem & _).
  destruct (reparentOne_spec nA _ _ _ _ En Hokm) as (Hokn & Htdn & Hpdn & Hlen & _).
  destruct (reparent_spec nA _ _ _ _ E3 Hokn) as (Hok3 & Htd3 & Hpd3 & Hle3 & Hfr3).
  assert (parentNode (dom pc3) !! child = Some td) as Hch3.
  { rewrite Hfr3; [exact Hchn|lia|].
    intros x q Hx Eq Ex. rewrite Hpdn, Hpdm in Ex.
    assert (id q = id p) as Hid by (by apply (Hinj2 (id q) (id p) child)).
    rewrite Hsplit in Hnd. unfold postIds in Hnd. rewrite omap_app in Hnd. simpl in Hnd. rewrite Ep in Hnd.
    simpl in Hnd. apply NoDup_app in Hnd as (_ & _ & Hnd).
    apply NoDup_cons in Hnd as [Hnin _]. apply Hnin.
    apply list_elem_of_omap. exists x. split; [done|]. simpl. rewrite Eq. simpl.
    by rewrite Hid. }
  assert (topicDivs pc3 = topicDivs pc2) as Htd32 by congruence.
  destruct (filterAndAssemble_frame _ _ _ _ _ _ _ _ _ E4) as [_ Hfr4].
  split.
  - rewrite Hfr4; [exact Hch3|lia|]. intros t Et.
    rewrite Htd32 in Et. destruct (Htdok _ _ Et). lia.
  - intros Hin.
    destruct (updateForumData_threadIds _ _ _ _ _ _ Eu l Hl) as (q & t0 & Eq & Et0).
    rewrite Ep in Eq. injection Eq as <-. rewrite Et0 in Hin, Etd. simpl in Hin, Etd.
    destruct Hok3 as (Hwf3 & HnA3 & _ & _ & _).
    destruct (filterAndAssemble_spec getFilteredThreadIds s1 posts (topicDivs pc3)
                (applyFilter opts) (showThreadCount opts) (dom pc3))
      as (frag2 & d5 & pre' & tds & E4' & _ & _ & _ & Hfa & _ & Hmem & _).
    + exact Hwf3.
    + intros t td' E. rewrite Htd32 in E. destruct (Htdok _ _ E). lia.
    + rewrite Htd32, Htd2. exact Hinj1.
    + intros x Hx.
      destruct (updateForumData_threadIds _ _ _ _ _ _ Eu x Hx) as (q & t & Eq & Et).
      destruct (Hcov1 x Hx) as (q' & Eq' & [td' Etd']).
      rewrite Eq in Eq'. injection Eq' as <-. rewrite Et in Etd'. simpl in Etd'.
      exists q, t, td'. split_and!; [done|done|]. by rewrite Htd32, Htd2.
    + rewrite E4 in E4'. injection E4' as <- <-.
      assert (t0 ∈ threadOrder (heap s1) posts
                (getFilteredThreadIds (heap s1) (threadHash s1) (applyFilter opts)))
        as Hord.
      { apply Hmem. split; [exact Hin|].
        apply list_elem_of_omap. exists l. split; [done|]. by rewrite Ep. }
      destruct (Forall2_elem_of_l _ _ _ _ Hfa Hord) as (td' & _ & Etd' & Hp').
      rewrite Htd32, Etd in Etd'. injection Etd' as <-. exact Hp'.
Qed.

(** Post 9 is its own thread "fr|9"; its node (2) is put in the container
    of that thread (1), which is in the fragment (3). *)
Example parseContent_9 :
  option_map (fun '(s, d, frag) => (parentNode d, frag))
    (parseContent allThreads 10 0 posts9 "info" state9 dom0)
  = Some (<[1%positive := 3%positive]> (<[2%positive := 1%positive]> ∅), 3%positive).
Proof. vm_compute. reflexivity. Qed.

Lemma parseContent_orphan_attached_witness :
  (dom_wf dom0 /\
   updateForumData 10 0 posts9 (fullSet (getOptionsForContext "info")) state9
     = Some state9' /\
   createTopicDivs (getOptionsForContext "info") (heap state9') posts9
     (mkPC dom0 ∅ ∅ ∅) = Some pc9_1 /\
   createPostDivs (heap state9') posts9 pc9_1 = Some pc9_2 /\
   2%positive ∈ posts9 /\
   heap state9' !! 2%positive = Some (set_threadId "fr|9" post9) /\
   parent (set_threadId "fr|9" post9) <> -1 /\
   parent (set_threadId "fr|9" post9) ∉ postIds (heap state9') posts9) /\
  exists child td,
    postDivs pc9_2 !! 9 = Some child /\ topicDivs pc9_2 !! "fr|9" = Some td.
Proof.
  assert (dom_wf dom0) as H1.
  { split; intros k v Hk; simpl in Hk; by rewrite lookup_empty in Hk. }
  assert (updateForumData 10 0 posts9 (fullSet (getOptionsForContext "info")) state9
            = Some state9') as H2 by (vm_compute; reflexivity).
  assert (createTopicDivs (getOptionsForContext "info") (heap state9') posts9
            (mkPC dom0 ∅ ∅ ∅) = Some pc9_1) as H3 by (vm_compute; reflexivity).
  assert (createPostDivs (heap state9') posts9 pc9_1 = Some pc9_2) as H4
    by (vm_compute; reflexivity).
  assert (2%positive ∈ posts9) as H5 by (apply elem_of_cons; by left).
  assert (heap state9' !! 2%positive = Some (set_threadId "fr|9" post9)) as H6
    by (vm_compute; reflexivity).
  assert (parent (set_threadId "fr|9" post9) <> -1) as H7 by (simpl; lia).
  assert (parent (set_threadId "fr|9" post9) ∉ postIds (heap state9') posts9) as H8
    by (intros Hin; change (postIds (heap state9') posts9) with [9] in Hin;
        apply elem_of_cons in Hin as [Hin|Hin]; [discriminate|by apply elem_of_nil in Hin]).
  split; [done|].
  destruct (parseContent_orphan_attached allThreads 10 0 posts9 "info" state9 dom0
              state9' pc9_1 pc9_2 2%positive (set_threadId "fr|9" post9)
              H1 H2 H3 H4 H5 H6 H7 H8)
    as (child & td & Ech & _ & Etd & _).
  exists child, td. split; [exact Ech|exact Etd].
Defined.

(** * Further properties of the forum code *)

(** ** Parse options per context *)

(** [getOptionsForContext]: only the ['parent'] context indexes
    incrementally, only ['summary'] builds no DOM, the filter applies in
    ['main'] and ['summary'], reply buttons appear in ['main'] and
    ['info'], item links and the thread count only in ['main']; any
    other context gets the defaults. *)
Theorem getOptionsForContext_flags (context : string) :
  let o := getOptionsForContext context in
  (fullSet o = false <-> context = "parent") /\
  (createDomElements o = false <-> context = "summary") /\
  (applyFilter o = true <-> context = "main" \/ context = "summary") /\
  (showReplyButton o = true <-> context = "main" \/ context = "info") /\
  (showItemLink o = true <-> context = "main") /\
  (showThreadCount o = true <-> context = "main").
Proof.
  unfold getOptionsForContext, getDefaultParseOptions. simpl.
  destruct (String.eqb_spec context "main") as [->|H1]; [naive_solver|].
  destruct (String.eqb_spec context "summary") as [->|H2]; [naive_solver|].
  destruct (String.eqb_spec context "info") as [->|H3]; [naive_solver|].
  destruct (String.eqb_spec context "parent") as [->|H4]; naive_solver.
Qed.

(** ** post2text *)

Lemma replace_all_go_absent n (pat rep s : string) :
  str_contains pat s = false -> replace_all_go n pat rep s = s.
Proof.
  revert s. induction n as [|n IH]; intros s H; [done|].
  destruct s as [|c s']; [done|]. simpl in H |- *.
  apply orb_false_iff in H as [Hp Hc]. rewrite Hp. by rewrite IH.
Qed.

Lemma prefix_head (a : Ascii.ascii) (r s : string) :
  String.prefix (String a r) s = true -> String.prefix (String a EmptyString) s = true.
Proof.
  destruct s as [|b s]; [done|]. simpl.
  destruct (Ascii.ascii_dec a b); [|done]. by destruct s.
Qed.

Lemma str_contains_head (a : Ascii.ascii) (r s : string) :
  str_contains (String a EmptyString) s = false -> str_contains (String a r) s = false.
Proof.
  induction s as [|b s IH]; [done|]. cbn [str_contains]. intros H.
  apply orb_false_iff in H as [Hp Hc]. rewrite IH by done.
  destruct (String.prefix (String a r) (String b s)) eqn:E; [|done].
  apply prefix_head in E. rewrite E in Hp. done.
Qed.

(** [post2text]: a text with no ["&"] and no ["<p>"] is returned
    unchanged. *)
Theorem post2text_plain (t : string) :
  str_contains "&" t = false -> str_contains "<p>" t = false ->
  post2text (Some t) = t.
Proof.
  intros Hamp Hp. unfold post2text, replace_all.
  rewrite (replace_all_go_absent _ "<p>") by done.
  rewrite (replace_all_go_absent _ "&quot;") by (by apply str_contains_head).
  rewrite (replace_all_go_absent _ "&lt;") by (by apply str_contains_head).
  rewrite (replace_all_go_absent _ "&gt;") by (by apply str_contains_head).
  rewrite (replace_all_go_absent _ "&amp;") by (by apply str_contains_head).
  done.
Qed.

Lemma post2text_plain_witness :
  str_contains "&" "Fix the <b> plural" = false /\
  str_contains "<p>" "Fix the <b> plural" = false /\
  post2text (Some "Fix the <b> plural") = "Fix the <b> plural".
Proof.
  split_and!; [reflexivity|reflexivity|].
  apply post2text_plain; reflexivity.
Defined.

(** ** fmtDateTime *)

Lemma string_length_app (s1 s2 : string) :
  String.length (s1 +:+ s2) = (String.length s1 + String.length s2)%nat.
Proof. induction s1 as [|c s1 IH]; simpl; [done|by rewrite IH]. Qed.

(** A finite range checked by evaluation. *)
Lemma forallb_seqZ_range (f : Z -> bool) (lo n k : Z) :
  forallb f (seqZ lo n) = true -> lo <= k < lo + n -> f k = true.
Proof.
  intros Hall Hk. rewrite forallb_forall in Hall. apply Hall.
  apply list_elem_of_In, elem_of_seqZ. lia.
Qed.

Lemma pad_length (n : Z) : 0 <= n <= 99 -> String.length (pad n) = 2%nat.
Proof.
  intros Hn. apply Nat.eqb_eq.
  apply (forallb_seqZ_range (fun k => Nat.eqb (String.length (pad k)) 2) 0 100);
    [vm_compute; reflexivity|lia].
Qed.

Lemma pretty_year_length (n : Z) :
  1000 <= n <= 9999 -> String.length (pretty n) = 4%nat.
Proof.
  intros Hn. apply Nat.eqb_eq.
  apply (forallb_seqZ_range (fun k => Nat.eqb (String.length (pretty k)) 4) 1000 9000);
    [vm_compute; reflexivity|lia].
Qed.

(** [fmtDateTime(x)] has the fixed width of ["YYYY-MM-DD hh:mm"] (16
    characters) whenever the year has four digits and the month, day, hour
    and minute fields of the date are in their ranges: [pad] gives two
    digits to each field. *)
Theorem fmtDateTime_width getFullYear getMonth getDate getHours getMinutes (x : Z) :
  1000 <= getFullYear x <= 9999 -> 0 <= getMonth x <= 11 ->
  1 <= getDate x <= 31 -> 0 <= getHours x <= 23 -> 0 <= getMinutes x <= 59 ->
  String.length (fmtDateTime getFullYear getMonth getDate getHours getMinutes x) = 16%nat.
Proof.
  intros Hy Hm Hd Hh Hmin. unfold fmtDateTime. rewrite !string_length_app.
  rewrite pretty_year_length, !pad_length by lia. reflexivity.
Qed.

Lemma fmtDateTime_width_witness :
  fmtDateTime (fun _ => 2018) (fun _ => 4) (fun _ => 16) (fun _ => 13) (fun _ => 5) 0
    = "2018-05-16 13:05" /\
  String.length (fmtDateTime (fun _ => 2018) (fun _ => 4) (fun _ => 16)
                   (fun _ => 13) (fun _ => 5) 0) = 16%nat.
Proof.
  split; [vm_compute; reflexivity|].
  apply (fmtDateTime_width (fun _ => 2018) (fun _ => 4) (fun _ => 16)
           (fun _ => 13) (fun _ => 5) 0); lia.
Defined.

(** ** The walk up the tree in [appendChild] *)

Lemma rooted_no_cycle par x : rooted par x -> ~ tc (parent_of par) x x.
Proof.
  induction 1 as [n Hn|n m Hnm Hr IH]; intros Htc.
  - inversion Htc as [? y Hy|? y ? Hy _]; unfold parent_of in Hy; congruence.
  - inversion Htc as [? y Hy|? y ? Hy Hyn]; subst; unfold parent_of in Hy;
      rewrite Hy in Hnm; injection Hnm as <-.
    + apply IH, tc_once. exact Hy.
    + apply IH. eapply tc_r; [exact Hyn|exact Hy].
Qed.

Lemma rooted_path par n :
  rooted par n ->
  exists xs, NoDup xs /\
    (forall y, y ∈ xs -> is_Some (par !! y) /\ rtc (parent_of par) n y) /\
    forall fuel a, (length xs < fuel)%nat ->
      (forall m, rtc (parent_of par) n m -> m <> a) ->
      is_inclusive_ancestor fuel par a n = false.
Proof.
  induction 1 as [n Hn|n m Hnm Hr IH].
  - exists []. split_and!; [constructor|intros y Hy; inversion Hy|].
    intros [|f] a Hf Ha; [simpl in Hf; lia|]. simpl.
    rewrite decide_False by (apply not_eq_sym, Ha, rtc_refl). by rewrite Hn.
  - destruct IH as (xs & Hnd & Hxs & Hwalk).
    exists (n :: xs). split_and!.
    + constructor; [|done]. intros Hin. destruct (Hxs n Hin) as [_ Hmn].
      apply (rooted_no_cycle par m Hr). eapply tc_rtc_l; [exact Hmn|].
      apply tc_once. exact Hnm.
    + intros y Hy. apply elem_of_cons in Hy as [->|Hy].
      * split; [by rewrite Hnm|apply rtc_refl].
      * destruct (Hxs y Hy) as [Hs Hr']. split; [done|].
        eapply rtc_l; [exact Hnm|exact Hr'].
    + intros [|f] a Hf Ha; [simpl in Hf; lia|]. simpl.
      rewrite decide_False by (apply not_eq_sym, Ha, rtc_refl). rewrite Hnm.
      apply Hwalk; [simpl in Hf; lia|].
      intros m' Hm'. apply Ha. eapply rtc_l; [exact Hnm|exact Hm'].
Qed.

(** In a tree, the ancestor test of [appendChild] answers [false] for a
    node that is not on the walk up from [n]. *)
Lemma rooted_not_ancestor par n a :
  rooted par n -> (forall m, rtc (parent_of par) n m -> m <> a) ->
  is_inclusive_ancestor (S (size par)) par a n = false.
Proof.
  intros Hr Ha. destruct (rooted_path par n Hr) as (xs & Hnd & Hxs & Hwalk).
  apply Hwalk; [|done].
  assert (length xs <= size par)%nat; [|lia].
  rewrite <- (size_list_to_set (C:=gset node) xs Hnd), <- size_dom.
  apply subseteq_size. intros y. rewrite elem_of_list_to_set, elem_of_dom.
  intros Hy. apply (Hxs y Hy).
Qed.

Lemma rooted_agree (par par' : gmap node node) (N : node) (x : node) :
  (forall k, (k < N)%positive -> par' !! k = par !! k) ->
  (forall k v, par !! k = Some v -> (v < N)%positive) ->
  (x < N)%positive -> rooted par x -> rooted par' x.
Proof.
  intros Hag Hv Hx Hr. induction Hr as [n Hn|n m Hnm Hr IH].
  - apply rooted_top. by rewrite Hag.
  - apply (rooted_step _ _ m); [by rewrite Hag|]. apply IH. exact (Hv _ _ Hnm).
Qed.

Lemma rtc_agree_bound (par par' : gmap node node) (N : node) (x m : node) :
  (forall k, (k < N)%positive -> par' !! k = par !! k) ->
  (forall k v, par !! k = Some v -> (v < N)%positive) ->
  (x < N)%positive -> rtc (parent_of par') x m -> (m < N)%positive.
Proof.
  intros Hag Hv Hx Hr. induction Hr as [y|y z w Hyz _ IH]; [done|].
  apply IH. unfold parent_of in Hyz. rewrite Hag in Hyz by done. exact (Hv _ _ Hyz).
Qed.

Lemma appendChild_fresh_children pn c d d' :
  appendChild pn c d = Some d' -> parentNode d !! c = None ->
  childNodes d' = <[pn := default [] (childNodes d !! pn) ++ [c]]> (childNodes d).
Proof.
  unfold appendChild. destruct (is_inclusive_ancestor _ _ _ _); [discriminate|].
  intros H Hc. injection H as <-. simpl. by rewrite Hc.
Qed.

(** [forumCreateChunk]: a fresh element, holding a fresh text node when
    the text is truthy; no node allocated before changes. *)
Lemma forumCreateChunk_spec (txt : option string) d :
  dom_wf d ->
  exists d1, forumCreateChunk txt d = Some (nextNode d, d1) /\ dom_wf d1 /\
    (nextNode d < nextNode d1)%positive /\
    parentNode d1 !! nextNode d = None /\
    default [] (childNodes d1 !! nextNode d)
      = (if truthy txt then [Pos.succ (nextNode d)] else []) /\
    forall k, (k < nextNode d)%positive ->
      parentNode d1 !! k = parentNode d !! k /\ childNodes d1 !! k = childNodes d !! k.
Proof.
  intros Hwf. set (N := nextNode d).
  destruct (dom_wf_fresh d N Hwf ltac:(lia)) as (HpN & HcN & _).
  unfold forumCreateChunk. cbn [createElement fst snd]. fold N.
  destruct (truthy txt); cbn [nextNode parentNode childNodes].
  - set (d2 := mkDom (Pos.succ (Pos.succ N)) (parentNode d) (childNodes d)).
    destruct (appendChild_ok N (Pos.succ N) d2) as [d3 E3]; [lia|exact HpN|].
    rewrite E3. simpl. exists d3. destruct (appendChild_inv _ _ _ _ E3) as [Hn3 Hp3].
    destruct (dom_wf_fresh d (Pos.succ N) Hwf ltac:(lia)) as (HpS & _).
    pose proof (appendChild_fresh_children _ _ _ _ E3 HpS) as Hc3.
    split_and!.
    + reflexivity.
    + refine (appendChild_wf _ _ _ _ _ _ _ E3); [|simpl; lia|simpl; lia].
      apply dom_wf_mono; [done|]. fold N. lia.
    + rewrite Hn3. simpl. lia.
    + rewrite Hp3. simpl. rewrite lookup_insert_ne by lia. exact HpN.
    + rewrite Hc3. simpl. rewrite lookup_insert_eq, HcN. done.
    + intros k Hk. rewrite Hp3, Hc3. simpl.
      rewrite !lookup_insert_ne by lia. done.
  - eexists. split; [reflexivity|]. split_and!.
    + apply dom_wf_mono; [done|]. fold N. lia.
    + simpl. lia.
    + exact HpN.
    + simpl. by rewrite HcN.
    + done.
Qed.

(** Appending to a node of a tree never throws for a child that is not on
    the walk up from it. *)
Lemma appendChild_ok_rooted pn c d :
  rooted (parentNode d) pn ->
  (forall m, rtc (parent_of (parentNode d)) pn m -> m <> c) ->
  exists d', appendChild pn c d = Some d'.
Proof.
  intros Hr Hc. unfold appendChild. rewrite rooted_not_ancestor by done. by eexists.
Qed.

(** The button loop: one fresh button per key, appended in order after
    the existing children of [el], each holding its label; no node
    allocated before is moved, and only [el] gains children. *)
Lemma appendButtons_spec (el : node) (ts : list string) d :
  dom_wf d -> (el < nextNode d)%positive -> rooted (parentNode d) el ->
  exists d' bs, appendButtons el ts d = Some (d', bs) /\ bs.*2 = ts /\
    NoDup bs.*1 /\
    (forall b, b ∈ bs.*1 -> (nextNode d <= b)%positive) /\
    default [] (childNodes d' !! el) = default [] (childNodes d !! el) ++ bs.*1 /\
    (forall b (t : string), (b, t) ∈ bs ->
       default [] (childNodes d' !! b) = if truthy (Some t) then [Pos.succ b] else []) /\
    (forall k, (k < nextNode d)%positive -> parentNode d' !! k = parentNode d !! k) /\
    (forall k, (k < nextNode d)%positive -> k <> el ->
       childNodes d' !! k = childNodes d !! k) /\
    dom_wf d' /\ (nextNode d <= nextNode d')%positive.
Proof.
  revert d. induction ts as [|t ts IH]; intros d Hwf Hel Hr.
  - exists d, []. simpl. rewrite app_nil_r.
    split_and!; [done|done|apply NoDup_nil_2|intros b Hb; inversion Hb|done
                |intros b t Hb; inversion Hb|done|done|done|lia].
  - set (N := nextNode d).
    destruct (forumCreateChunk_spec (Some t) d Hwf)
      as (d1 & E1 & Hwf1 & Hn1 & HpN1 & HcN1 & Hag1).
    fold N in E1, Hn1, HpN1, HcN1, Hag1.
    destruct Hwf as [Hpd Hcd].
    assert (forall k v, parentNode d !! k = Some v -> (v < N)%positive) as Hv
      by (intros k v Hk; exact (proj2 (Hpd k v Hk))).
    assert (rooted (parentNode d1) el) as Hr1.
    { apply (rooted_agree (parentNode d) _ N); [|done|done|done].
      intros k Hk. exact (proj1 (Hag1 k Hk)). }
    destruct (appendChild_ok_rooted el N d1 Hr1) as [d2 E2].
    { intros m Hm. enough (m < N)%positive by lia.
      refine (rtc_agree_bound (parentNode d) _ N el m _ Hv Hel Hm).
      intros k Hk. exact (proj1 (Hag1 k Hk)). }
    destruct (appendChild_inv _ _ _ _ E2) as [Hn2 Hp2].
    pose proof (appendChild_fresh_children _ _ _ _ E2 HpN1) as Hc2.
    assert (dom_wf d2) as Hwf2.
    { refine (appendChild_wf _ _ _ _ Hwf1 _ _ E2); lia. }
    assert (forall k, (k < N)%positive -> parentNode d2 !! k = parentNode d !! k) as Hag2.
    { intros k Hk. rewrite Hp2, lookup_insert_ne by lia. exact (proj1 (Hag1 k Hk)). }
    assert (rooted (parentNode d2) el) as Hr2.
    { by apply (rooted_agree (parentNode d) _ N). }
    destruct (IH d2 Hwf2 ltac:(lia) Hr2)
      as (d' & bs & E3 & Hts & Hnd & Hge & Hch & Hbt & Hpar & Hcho & Hwf' & Hn').
    exists d', ((N, t) :: bs). split_and!.
    + simpl. rewrite E1. simpl. rewrite E2. simpl. rewrite E3. done.
    + by rewrite fmap_cons, Hts.
    + rewrite fmap_cons. constructor; [|done]. intros Hin. specialize (Hge N Hin). lia.
    + intros b Hb. rewrite fmap_cons in Hb.
      apply elem_of_cons in Hb as [->|Hb]; [simpl; lia|].
      specialize (Hge b Hb). lia.
    + rewrite fmap_cons, Hch, Hc2, lookup_insert_eq. simpl.
      rewrite (proj2 (Hag1 el Hel)). by rewrite <- app_assoc.
    + intros b t' Hb. apply elem_of_cons in Hb as [Hb|Hb]; [|by apply Hbt].
      injection Hb as -> ->. rewrite Hcho by lia. rewrite Hc2.
      rewrite lookup_insert_ne by lia. exact HcN1.
    + intros k Hk. rewrite Hpar by lia. by apply Hag2.
    + intros k Hk Hne. rewrite Hcho by lia. rewrite Hc2, lookup_insert_ne by done.
      exact (proj2 (Hag1 k Hk)).
    + done.
    + lia.
Qed.

Lemma dom_wf_empty (n : node) : dom_wf (mkDom n ∅ ∅).
Proof. split; simpl; intros k v Hk; by rewrite lookup_empty in Hk. Qed.

(** ** The new-post and reply buttons *)

(** [addNewPostButtons(el, ...)], on a node [el] of the tree: it never
    throws, whoever the user is; it appends, after the existing children
    of [el], one fresh button for [Request] (only when [myValue] is
    truthy) and one for [Discuss], in that order, and moves no existing
    node. *)
Theorem addNewPostButtons_spec surveyUser isTC passIfClosed s (el : node)
    (myValue : option string) d :
  dom_wf d -> (el < nextNode d)%positive -> rooted (parentNode d) el ->
  exists d' bs,
    addNewPostButtons surveyUser isTC passIfClosed s el myValue d = Some (d', bs) /\
    bs.*2 = (if truthy myValue then ["Request"; "Discuss"] else ["Discuss"]) /\
    NoDup bs.*1 /\ (forall b, b ∈ bs.*1 -> (nextNode d <= b)%positive) /\
    default [] (childNodes d' !! el) = default [] (childNodes d !! el) ++ bs.*1 /\
    (forall k, (k < nextNode d)%positive -> parentNode d' !! k = parentNode d !! k).
Proof.
  intros Hwf Hel Hr. unfold addNewPostButtons, getStatusOptions, userCanClose.
  cbn [mbind option_bind andb negb].
  destruct (appendButtons_spec el
              (if truthy myValue then ["Request"; "Discuss"] else ["Discuss"]) d Hwf Hel Hr)
    as (d' & bs & E & Hts & Hnd & Hge & Hch & _ & Hpar & _).
  exists d', bs. split_and!; try done.
  rewrite <- E. by destruct (truthy myValue).
Qed.

Lemma addNewPostButtons_spec_witness :
  dom_wf (mkDom 2 ∅ ∅) /\ rooted ∅ 1%positive /\
  exists d' bs,
    addNewPostButtons None false (fun _ _ => false) state59 1 (Some "x") (mkDom 2 ∅ ∅)
      = Some (d', bs) /\ bs.*2 = ["Request"; "Discuss"].
Proof.
  assert (dom_wf (mkDom 2 ∅ ∅)) as Hwf by apply dom_wf_empty.
  assert (rooted ∅ 1%positive) as Hr by (apply rooted_top; reflexivity).
  split_and!; [exact Hwf|exact Hr|].
  destruct (addNewPostButtons_spec None false (fun _ _ => false) state59 1 (Some "x")
              (mkDom 2 ∅ ∅) Hwf ltac:(simpl; lia) Hr)
    as (d' & bs & E & Hts & _).
  exists d', bs. split; [exact E|exact Hts].
Defined.

Lemma reply_status_options surveyUser isTC passIfClosed s r p :
  heap s !! r = Some p ->
  exists opts, getStatusOptions surveyUser isTC passIfClosed s true (Some r) None = Some opts /\
    head opts = Some "Discuss" /\ ("Request" ∉ opts) /\
    forall u : string, u ∈ opts -> u = "Discuss" \/ u = "Agree" \/ u = "Decline" \/ u = "Close".
Proof.
  intros Hp. unfold getStatusOptions, userCanClose, threadIsClosed.
  cbn [mbind option_bind andb negb truthy]. rewrite Hp. cbn [mbind option_bind].
  eexists. split; [reflexivity|].
  repeat case_match; split_and!; try reflexivity;
    try (intros u; rewrite ?elem_of_app, ?elem_of_cons, ?elem_of_nil; intuition discriminate);
    rewrite ?elem_of_app, ?elem_of_cons, ?elem_of_nil; intuition discriminate.
Qed.

(** [addReplyButtons(el, post)], for a post whose thread walk ends at a
    post object: it never throws; the buttons, appended after the existing
    children of [el], begin with [Discuss] and never offer [Request]. *)
Theorem addReplyButtons_spec surveyUser isTC passIfClosed fuel s (el : node) (l r : loc) d :
  getOldestPostInThread fuel (heap s) (postHash s) l = Some r -> is_Some (heap s !! r) ->
  dom_wf d -> (el < nextNode d)%positive -> rooted (parentNode d) el ->
  exists d' bs,
    addReplyButtons surveyUser isTC passIfClosed fuel s el l d = Some (d', bs) /\
    head (bs.*2) = Some "Discuss" /\ ("Request" ∉ bs.*2) /\
    NoDup bs.*1 /\ (forall b, b ∈ bs.*1 -> (nextNode d <= b)%positive) /\
    default [] (childNodes d' !! el) = default [] (childNodes d !! el) ++ bs.*1 /\
    (forall k, (k < nextNode d)%positive -> parentNode d' !! k = parentNode d !! k).
Proof.
  intros Hold [p Hp] Hwf Hel Hr. unfold addReplyButtons. rewrite Hold. cbn [mbind option_bind].
  destruct (reply_status_options surveyUser isTC passIfClosed s r p Hp)
    as (opts & Eo & Hhd & Hreq & _).
  rewrite Eo. cbn [mbind option_bind].
  destruct (appendButtons_spec el opts d Hwf Hel Hr)
    as (d' & bs & E & Hts & Hnd & Hge & Hch & _ & Hpar & _).
  exists d', bs. rewrite Hts. split_and!; done.
Qed.

Lemma addReplyButtons_spec_witness :
  getOldestPostInThread 10 (heap state59) (postHash state59) 2 = Some 2%positive /\
  exists d' bs,
    addReplyButtons (Some (mkSurveyUser 1)) false (fun _ _ => false) 10 state59 1 2 (mkDom 2 ∅ ∅)
      = Some (d', bs) /\ head (bs.*2) = Some "Discuss".
Proof.
  assert (getOldestPostInThread 10 (heap state59) (postHash state59) 2 = Some 2%positive)
    as Hold by reflexivity.
  split; [exact Hold|].
  destruct (addReplyButtons_spec (Some (mkSurveyUser 1)) false (fun _ _ => false) 10 state59 1 2 2
              (mkDom 2 ∅ ∅) Hold ltac:(eexists; reflexivity) (dom_wf_empty 2)
              ltac:(simpl; lia) (rooted_top ∅ 1 (lookup_empty 1)))
    as (d' & bs & E & Hhd & _).
  exists d', bs. split; [exact E|exact Hhd].
Defined.

Lemma appendButtons_types (el : node) (ts : list string) d d' bs :
  appendButtons el ts d = Some (d', bs) -> bs.*2 = ts.
Proof.
  revert d bs. induction ts as [|t ts IH]; intros d bs H; simpl in H.
  - by injection H as <- <-.
  - destruct (forumCreateChunk (Some t) d) as [[b d1]|]; simpl in H; [|discriminate].
    destruct (appendChild el b d1) as [d2|]; simpl in H; [|discriminate].
    destruct (appendButtons el ts d2) as [[d3 bs']|] eqn:E; simpl in H; [|discriminate].
    injection H as <- <-. rewrite fmap_cons. simpl. by rewrite (IH _ _ E).
Qed.

Lemma or_null_nonempty (t : string) : t <> "" -> or_null (Some t) = Some t.
Proof.
  intros Ht. unfold or_null, truthy. by destruct (String.eqb_spec t "").
Qed.

(** ** Opening the post window *)

(** The click handler of a button made by [addNewPostButtons]: the window
    opens a new post (no parent, [replyTo] [-1] in the form) of the
    button's type, with the subject computed by the handler; its body is
    prefilled with the vote only for [Request], and is empty for
    [Discuss]; opening it leaves the forum state unchanged. *)
Theorem newPostButton_opens xpathOf PathHeader formatPathHeader getFilteredThreadIds
    surveyUser isTC passIfClosed fuel (now : Z) s (el : node) (myValue : option string)
    d d' bs (b : node) (t : string) (locale_ : option string) (couldFlag : bool)
    (xpstrid code : string) (ph : option PathHeader) :
  addNewPostButtons surveyUser isTC passIfClosed s el myValue d = Some (d', bs) ->
  (b, t) ∈ bs ->
  exists w,
    openPostOrReply xpathOf fuel s
      (newPostParams PathHeader formatPathHeader t locale_ couldFlag xpstrid code
         myValue ph) = Some w /\
    win_parent w = None /\
    win_html w = makePostHtml (Some t) (default "" locale_) xpstrid (-1) /\
    win_subject w = newPostSubject PathHeader formatPathHeader couldFlag xpstrid code ph /\
    win_text w = (if bool_decide (t = "Request")
                  then "Please consider voting for " +:+ js_str myValue +:+ char_nl
                  else "") /\
    forall d0, exists d1,
      openPostWindow getFilteredThreadIds fuel now w s d0 = Some (s, d1).
Proof.
  intros Hadd Hb.
  unfold addNewPostButtons, getStatusOptions, userCanClose in Hadd.
  cbn [mbind option_bind andb negb] in Hadd.
  apply appendButtons_types in Hadd.
  assert (t ∈ bs.*2) as Ht by (apply list_elem_of_fmap; by exists (b, t)).
  rewrite Hadd in Ht.
  assert ((t = "Request" /\ truthy myValue = true) \/ t = "Discuss") as Ht'.
  { destruct (truthy myValue); simpl in Ht;
      rewrite ?elem_of_cons, ?elem_of_nil in Ht; naive_solver. }
  assert (t <> "") as Hne by (destruct Ht' as [[-> _]| ->]; discriminate).
  eexists. split; [reflexivity|].
  cbn -[makePostHtml prefillPostText makePostSubject newPostSubject].
  rewrite or_null_nonempty by exact Hne.
  split_and!; try reflexivity.
  - unfold prefillPostText.
    destruct Ht' as [[-> Hv]| ->]; cbn -[js_str truthy or_null]; [|done].
    unfold or_null. rewrite Hv, Hv. done.
  - intros d0. unfold openPostWindow. simpl. by eexists.
Qed.

Lemma newPostButton_opens_witness :
  let D := fst (default (dom0, [])
                  (addNewPostButtons None false (fun _ _ => false) state59 1 (Some "x")
                     (mkDom 2 ∅ ∅))) in
  addNewPostButtons None false (fun _ _ => false) state59 1 (Some "x") (mkDom 2 ∅ ∅)
    = Some (D, [(2%positive, "Request"); (4%positive, "Discuss")]) /\
  exists w,
    openPostOrReply (fun _ => "") 10 state59
      (newPostParams unit (fun _ => "") "Request" (Some "fr") false "abc" "x" (Some "x") None)
      = Some w /\
    win_text w = "Please consider voting for x" +:+ char_nl.
Proof.
  intros D.
  assert (addNewPostButtons None false (fun _ _ => false) state59 1 (Some "x") (mkDom 2 ∅ ∅)
            = Some (D, [(2%positive, "Request"); (4%positive, "Discuss")])) as E
    by (vm_compute; reflexivity).
  split; [exact E|].
  destruct (newPostButton_opens (fun _ => "") unit (fun _ => "") allThreads None false
              (fun _ _ => false) 10 0 state59 1 (Some "x") (mkDom 2 ∅ ∅) D _ 2 "Request"
              (Some "fr") false "abc" "x" None E ltac:(by apply elem_of_cons; left))
    as (w & Ew & _ & _ & _ & Ht & _).
  exists w. split; [exact Ew|]. rewrite Ht. reflexivity.
Defined.

Lemma makePostSubject_re (pp : Post) (subjectParam : string) :
  String.prefix "Re:" (makePostSubject true (Some pp) subjectParam) = true.
Proof.
  unfold makePostSubject. rewrite substring_re_prefix.
  destruct (String.prefix "Re:" (post2text (subject pp))) eqn:E; simpl; [exact E|done].
Qed.

Lemma isReplyTo_pos (n : Z) : 0 < n -> isReplyTo (Some n) = true.
Proof.
  intros Hn. unfold isReplyTo.
  rewrite !bool_decide_eq_true_2 by lia. done.
Qed.

(** The click handler of a button made by [addReplyButtons] for a post
    with a positive id: the window replies to that post ([replyTo] is its
    id), carries the locale and xpath of the thread's first post, has a
    subject beginning with ["Re:"], and its body is prefilled for every
    offered type except [Discuss]. *)
Theorem replyButton_opens xpathOf surveyUser isTC passIfClosed fuel s (el : node) (l : loc)
    d d' bs (b : node) (t : string) p :
  addReplyButtons surveyUser isTC passIfClosed fuel s el l d = Some (d', bs) ->
  (b, t) ∈ bs -> heap s !! l = Some p -> 0 < id p ->
  exists r fp w,
    getOldestPostInThread fuel (heap s) (postHash s) l = Some r /\
    heap s !! r = Some fp /\
    openPostOrReply xpathOf fuel s (replyParams l p t) = Some w /\
    win_parent w = Some l /\
    win_html w = makePostHtml (Some t) (locale fp) (xpathOf fp) (id p) /\
    String.prefix "Re:" (win_subject w) = true /\
    (win_text w = "" <-> t = "Discuss").
Proof.
  intros Hadd Hb Hp Hid. unfold addReplyButtons in Hadd.
  destruct (getOldestPostInThread fuel (heap s) (postHash s) l) as [r|] eqn:Eo;
    cbn [mbind option_bind] in Hadd; [|discriminate].
  destruct (heap s !! r) as [fp|] eqn:Er.
  2:{ unfold getStatusOptions, userCanClose, threadIsClosed in Hadd.
      cbn [mbind option_bind andb negb truthy] in Hadd. rewrite Er in Hadd.
      discriminate. }
  destruct (reply_status_options surveyUser isTC passIfClosed s r fp Er)
    as (opts & Eopts & _ & _ & Hall).
  rewrite Eopts in Hadd. cbn [mbind option_bind] in Hadd.
  apply appendButtons_types in Hadd.
  assert (t ∈ opts) as Ht by (rewrite <- Hadd; apply list_elem_of_fmap; by exists (b, t)).
  specialize (Hall t Ht).
  assert (t <> "") as Hne by (destruct Hall as [->|[->|[->| ->]]]; discriminate).
  exists r, fp. eexists. split_and!; [done|done|..].
  - unfold openPostOrReply, replyParams.
    cbn [prm_replyTo prm_replyData prm_locale prm_xpath prm_subject prm_postType prm_myValue].
    rewrite isReplyTo_pos by done. cbn [default mbind option_bind].
    rewrite Eo. cbn [mbind option_bind]. rewrite Er. cbn [mbind option_bind].
    rewrite Hp. cbn [mbind option_bind]. reflexivity.
  - reflexivity.
  - cbn [win_html]. by rewrite or_null_nonempty.
  - apply makePostSubject_re.
  - cbn [win_text]. rewrite or_null_nonempty by done.
    destruct Hall as [->|[->|[->| ->]]]; cbn; split; (done || discriminate).
Qed.

Lemma replyButton_opens_witness :
  let D := fst (default (dom0, [])
                  (addReplyButtons (Some (mkSurveyUser 7)) false (fun _ _ => false) 10 state59 1 2
                     (mkDom 2 ∅ ∅))) in
  addReplyButtons (Some (mkSurveyUser 7)) false (fun _ _ => false) 10 state59 1 2 (mkDom 2 ∅ ∅)
    = Some (D, [(2%positive, "Discuss")]) /\
  exists w,
    openPostOrReply (fun _ => "") 10 state59 (replyParams 2 post9 "Discuss") = Some w /\
    String.prefix "Re:" (win_subject w) = true.
Proof.
  intros D.
  assert (addReplyButtons (Some (mkSurveyUser 7)) false (fun _ _ => false) 10 state59 1 2 (mkDom 2 ∅ ∅)
            = Some (D, [(2%positive, "Discuss")])) as E by (vm_compute; reflexivity).
  split; [exact E|].
  destruct (replyButton_opens (fun _ => "") (Some (mkSurveyUser 7)) false (fun _ _ => false) 10 state59 1 2
              (mkDom 2 ∅ ∅) D _ 2 "Discuss" post9 E ltac:(by apply elem_of_cons; left)
              eq_refl ltac:(simpl; lia))
    as (r & fp & w & _ & _ & Ew & _ & _ & Hre & _).
  exists w. split; [exact Ew|exact Hre].
Defined.

(** [makeOneReplyButton] for a post whose id is [0] or negative: the
    handler's [replyTo] is falsy or negative, so the window opens as a new
    post: no parent, empty subject, locale and xpath, and [replyTo] [-1]
    in the form. *)
Theorem replyButton_nonpositive_id xpathOf fuel s (l : loc) p (t : string) :
  id p <= 0 ->
  openPostOrReply xpathOf fuel s (replyParams l p t)
  = Some (mkWindow (makePostHtml (or_null (Some t)) "" "" (-1)) ""
            (prefillPostText (or_null (Some t)) None) None).
Proof.
  intros Hid. unfold openPostOrReply, replyParams.
  cbn [prm_replyTo prm_replyData prm_locale prm_xpath prm_subject prm_postType prm_myValue].
  assert (isReplyTo (Some (id p)) = false) as Hr.
  { unfold isReplyTo. destruct (decide (id p = 0)) as [E|E].
    - rewrite bool_decide_eq_false_2 by lia. done.
    - rewrite (bool_decide_eq_false_2 (0 <= id p)) by lia. apply andb_false_r. }
  rewrite Hr. reflexivity.
Qed.

Lemma replyButton_nonpositive_id_witness :
  id (mkPost 0 (-1) "fr" (Some "Hi") "Discuss" 1 None) <= 0 /\
  win_parent (default (mkWindow "" "" "" (Some 1%positive))
    (openPostOrReply (fun _ => "") 10 state59
       (replyParams 1 (mkPost 0 (-1) "fr" (Some "Hi") "Discuss" 1 None) "Agree"))) = None.
Proof.
  split; [simpl; lia|].
  rewrite (replyButton_nonpositive_id (fun _ => "") 10 state59 1
             (mkPost 0 (-1) "fr" (Some "Hi") "Discuss" 1 None) "Agree") by (simpl; lia).
  reflexivity.
Defined.

(** [openPostOrReply] with a positive [replyTo] but no [replyData] throws
    (reading [firstPost.locale] of [null]). *)
Theorem openPostOrReply_missing_replyData xpathOf fuel s params (n : Z) :
  prm_replyTo params = Some n -> 0 < n -> prm_replyData params = None ->
  openPostOrReply xpathOf fuel s params = None.
Proof.
  intros Hr Hn Hd. unfold openPostOrReply. rewrite Hr, Hd, isReplyTo_pos by done.
  reflexivity.
Qed.

Lemma openPostOrReply_missing_replyData_witness :
  openPostOrReply (fun _ => "") 10 state59
    (mkParams None None (Some 9) None None (Some "Discuss") None) = None.
Proof.
  exact (openPostOrReply_missing_replyData (fun _ => "") 10 state59
           (mkParams None None (Some 9) None None (Some "Discuss") None) 9
           eq_refl ltac:(lia) eq_refl).
Defined.

(** Opening a reply window: [parseContent([parentPost], 'parent')]
    re-indexes the parent incrementally ([fullSet] false).  The parent is
    filed again in [postHash] and pushed once more onto the end of its
    thread's list in [threadHash], after the copies already there; the
    update time is refreshed and the locale is kept. *)
Theorem openPostWindow_reindexes_parent getFilteredThreadIds fuel (now : Z) w s d s' d'
    (pl : loc) :
  win_parent w = Some pl ->
  openPostWindow getFilteredThreadIds fuel now w s d = Some (s', d') ->
  exists p,
    heap s' !! pl = Some p /\
    postHash s' = <[id p := pl]> (postHash s) /\
    threadHash s' !! tid_key (threadId p)
      = Some (default [] (threadHash s !! tid_key (threadId p)) ++ [pl]) /\
    forumUpdateTime s' = Some now /\ forumLocale s' = forumLocale s.
Proof.
  intros Hw H. unfold openPostWindow in H. rewrite Hw in H.
  cbn [createElement fst snd] in H.
  destruct (parseContent _ _ _ _ _ _ _) as [[[s1 d2] fd]|] eqn:Ep; simpl in H;
    [|discriminate].
  destruct (appendChild _ fd d2) as [d3|]; simpl in H; [|discriminate].
  injection H as <- _.
  unfold parseContent in Ep.
  change (fullSet (getOptionsForContext "parent")) with false in Ep.
  destruct (updateForumData fuel now [pl] false s) as [s2|] eqn:Eu; simpl in Ep;
    [|discriminate].
  inv_bind Ep. destruct p2 as [frag d4]. injection Ep as <- _ _.
  unfold updateForumData in Eu. lazy beta iota zeta in Eu.
  destruct (updatePostHash (heap s) [pl] (postHash s)) as [ph|] eqn:Eph;
    cbn [mbind option_bind] in Eu; [|discriminate].
  destruct (addThreadIds fuel ph [pl] (heap s)) as [h1|] eqn:Eh;
    cbn [mbind option_bind] in Eu; [|discriminate].
  destruct (updateThreadHash h1 [pl] (threadHash s)) as [th|] eqn:Eth;
    cbn [mbind option_bind] in Eu; [|discriminate].
  injection Eu as <-. cbn [heap postHash threadHash forumUpdateTime forumLocale].
  simpl in Eph. destruct (heap s !! pl) as [q0|] eqn:Ep0; simpl in Eph; [|discriminate].
  injection Eph as <-.
  destruct (addThreadIds_spec _ _ _ _ _ Eh pl ltac:(by apply elem_of_cons; left))
    as (pp & _ & _ & Hp & _ & _).
  pose proof (addThreadIds_strip _ _ _ _ _ Eh) as Hs.
  destruct (lookup_same_strip _ _ pl pp Hs Hp) as (q & Hq & Hsq).
  rewrite Ep0 in Hq. injection Hq as <-.
  assert (id pp = id q0) as Hid by (apply (f_equal id) in Hsq; exact (eq_sym Hsq)).
  exists pp. split_and!; [done|by rewrite Hid| |done|done].
  rewrite (updateThreadHash_lookup _ _ _ _ Eth).
  rewrite filter_cons, decide_True by (unfold thread_of; by rewrite Hp).
  rewrite filter_nil. by destruct (threadHash s !! tid_key (threadId pp)).
Qed.

Lemma openPostWindow_reindexes_parent_witness :
  let s1 := default state59 (updateForumData 10 5 posts59 true state59) in
  let w := mkWindow "" "Re: Hello" "" (Some 1%positive) in
  let r := default (s1, dom0) (openPostWindow allThreads 10 7 w s1 dom0) in
  openPostWindow allThreads 10 7 w s1 dom0 = Some (r.1, r.2) /\
  threadHash r.1 !! "fr|5" = Some [2%positive; 1%positive; 1%positive] /\
  exists p,
    heap r.1 !! 1%positive = Some p /\
    threadHash r.1 !! tid_key (threadId p)
      = Some (default [] (threadHash s1 !! tid_key (threadId p)) ++ [1%positive]).
Proof.
  intros s1 w r.
  assert (openPostWindow allThreads 10 7 w s1 dom0 = Some (r.1, r.2)) as E
    by (vm_compute; reflexivity).
  split; [exact E|]. split; [vm_compute; reflexivity|].
  destruct (openPostWindow_reindexes_parent allThreads 10 7 w s1 dom0 r.1 r.2 1
              eq_refl E) as (p & Hp & _ & Hth & _).
  exists p. split; [exact Hp|exact Hth].
Defined.

(** ** The forum summary *)

Lemma parseContent_state getFilteredThreadIds fuel (now : Z) posts (context : string) s d
    s1 d1 (frag : node) :
  parseContent getFilteredThreadIds fuel now posts context s d = Some (s1, d1, frag) ->
  forumUpdateTime s1 = Some now /\ forumLocale s1 = forumLocale s.
Proof.
  unfold parseContent. intros H.
  destruct (updateForumData fuel now posts _ s) as [s2|] eqn:Eu; simpl in H; [|discriminate].
  inv_bind H. destruct p2 as [frag' d4]. injection H as <- _ _.
  unfold updateForumData in Eu. inv_bind Eu. by injection Eu as <-.
Qed.

Lemma setLocaleJS_same s : setLocaleJS (forumLocale s) s = s.
Proof. unfold setLocaleJS. by rewrite bool_decide_eq_true_2. Qed.

Lemma reallyGetForumSummaryHtml_loaded sid ajax c gy gm gd gh gmi (b : bool) s :
  truthyZ (forumUpdateTime s) = true ->
  reallyGetForumSummaryHtml sid ajax c gy gm gd gh gmi b s = (summaryCountsHtml c, s, None).
Proof. intros Ht. unfold reallyGetForumSummaryHtml. by rewrite Ht. Qed.

(** [getForumSummaryHtml(locale, userId)]: the data is fetched (one
    request, for [locale]) exactly when [locale] is not the loaded locale
    or nothing has been loaded yet; the html then says it is loading, and
    otherwise lists the thread counts.  Afterwards [locale] is the loaded
    locale. *)
Theorem getForumSummaryHtml_request (sid : string) c gy gm gd gh gmi (lc : string) s :
  let '(html, s', req) :=
    getForumSummaryHtml (Some sid) true c gy gm gd gh gmi (Some lc) s in
  req = (if bool_decide (forumLocale s = Some lc) && truthyZ (forumUpdateTime s)
         then None
         else Some ("SurveyAjax?s=" +:+ sid +:+ "&what=forum_fetch&xpath=0&_=" +:+ lc)) /\
  html = (if bool_decide (forumLocale s = Some lc) && truthyZ (forumUpdateTime s)
          then summaryCountsHtml c
          else "<div id='forumSummary'>" +:+ char_nl +:+
               "<p>Loading Forum Summary...</p>" +:+ char_nl +:+ "</div>" +:+ char_nl) /\
  forumLocale s' = Some lc.
Proof.
  unfold getForumSummaryHtml.
  destruct (decide (forumLocale s = Some lc)) as [Hl|Hl].
  - rewrite (bool_decide_eq_true_2 _ Hl). rewrite <- Hl, setLocaleJS_same.
    destruct (truthyZ (forumUpdateTime s)) eqn:Ht.
    + rewrite reallyGetForumSummaryHtml_loaded by done. done.
    + unfold reallyGetForumSummaryHtml, loadForumForSummaryOnly, getLoadForumUrl.
      rewrite Ht, setLocaleJS_same. simpl. rewrite Hl. done.
  - rewrite (bool_decide_eq_false_2 _ Hl). simpl.
    unfold setLocaleJS. rewrite bool_decide_eq_false_2 by congruence.
    unfold reallyGetForumSummaryHtml, loadForumForSummaryOnly, getLoadForumUrl. simpl.
    unfold setLocaleJS; simpl; rewrite bool_decide_eq_true_2 by done. done.
Qed.

(** The [loadHandler] of [loadForumForSummaryOnly]: once [parseContent]
    has indexed the response (at a time [Date.now()] other than [0]), the
    summary lists the thread counts; it never reports a failed load and
    never sends a further request. *)
Theorem summaryLoadHandler_counts sid ajax c gy gm gd gh gmi getFilteredThreadIds fuel
    (now : Z) posts s d (html : string) s2 d2 (req : option string) :
  now <> 0 ->
  summaryLoadHandler sid ajax c gy gm gd gh gmi getFilteredThreadIds fuel now posts s d
    = Some (html, s2, d2, req) ->
  html = summaryCountsHtml c /\ req = None.
Proof.
  intros Hnow H. unfold summaryLoadHandler in H.
  destruct (parseContent _ _ _ _ _ _ _) as [[[s1 d1] fr]|] eqn:Ep; simpl in H;
    [|discriminate].
  destruct (parseContent_state _ _ _ _ _ _ _ _ _ _ Ep) as [Ht _].
  rewrite reallyGetForumSummaryHtml_loaded in H
    by (rewrite Ht; unfold truthyZ; by rewrite bool_decide_eq_true_2).
  by injection H as <- _ _ <-.
Qed.

Lemma summaryLoadHandler_counts_witness :
  let c := [("Open", 1)] in
  let r := default ("", state59, dom0, Some "")
             (summaryLoadHandler (Some "S") true c (fun _ => 0) (fun _ => 0) (fun _ => 0)
                (fun _ => 0) (fun _ => 0) allThreads 10 7 posts59 state59 dom0) in
  summaryLoadHandler (Some "S") true c (fun _ => 0) (fun _ => 0) (fun _ => 0)
    (fun _ => 0) (fun _ => 0) allThreads 10 7 posts59 state59 dom0
    = Some (r.1.1.1, r.1.1.2, r.1.2, r.2) /\
  r.1.1.1 = summaryCountsHtml c /\ r.2 = None.
Proof.
  intros c r.
  assert (summaryLoadHandler (Some "S") true c (fun _ => 0) (fun _ => 0) (fun _ => 0)
            (fun _ => 0) (fun _ => 0) allThreads 10 7 posts59 state59 dom0
          = Some (r.1.1.1, r.1.1.2, r.1.2, r.2)) as E by (vm_compute; reflexivity).
  split; [exact E|].
  refine (summaryLoadHandler_counts _ _ _ _ _ _ _ _ _ _ 7 _ _ _ _ _ _ _ _ E); lia.
Defined.

Lemma setLocale_forumLocale (lc : string) s : forumLocale (setLocale lc s) = Some lc.
Proof.
  unfold setLocale. case_bool_decide as Hl; [done|done].
Qed.

(** [loadForum(locale, ...)]: it requests the forum of [locale]; when the
    response has posts and is indexed by [parseContent] (at a time other
    than [0]), the summary it shows lists the thread counts and sends no
    second request; without posts no summary is shown. *)
Theorem loadForum_summary (sid : string) ajax c gy gm gd gh gmi getFilteredThreadIds
    (lc : string) s fuel (now : Z) posts d s2 d2
    (sm : option (string * option string)) :
  now <> 0 ->
  loadForumHandler (Some sid) ajax c gy gm gd gh gmi getFilteredThreadIds fuel now posts
    (loadForum (Some sid) lc s).1 d = Some (s2, d2, sm) ->
  (loadForum (Some sid) lc s).2
    = "SurveyAjax?s=" +:+ sid +:+ "&what=forum_fetch&xpath=0&_=" +:+ lc /\
  forumLocale s2 = Some lc /\
  sm = (if bool_decide (posts = []) then None else Some (summaryCountsHtml c, None)).
Proof.
  intros Hnow H. unfold loadForum in *. cbn [fst snd] in *.
  split; [unfold getLoadForumUrl; by rewrite setLocale_forumLocale|].
  unfold loadForumHandler in H. destruct posts as [|l ls].
  - injection H as <- _ <-. split; [apply setLocale_forumLocale|done].
  - destruct (parseContent _ _ _ _ _ _ _) as [[[s1 d1] fr]|] eqn:Ep; simpl in H;
      [|discriminate].
    destruct (parseContent_state _ _ _ _ _ _ _ _ _ _ Ep) as [Ht Hl].
    unfold getForumSummaryHtml in H. rewrite setLocaleJS_same in H.
    rewrite reallyGetForumSummaryHtml_loaded in H
      by (rewrite Ht; unfold truthyZ; by rewrite bool_decide_eq_true_2).
    injection H as <- _ <-. rewrite Hl, setLocale_forumLocale.
    split; [done|]. by rewrite bool_decide_eq_false_2.
Qed.

Lemma loadForum_summary_witness :
  let c := [("Open", 1)] in
  let s1 := (loadForum (Some "S") "fr" state59).1 in
  let r := default (state59, dom0, None)
             (loadForumHandler (Some "S") true c (fun _ => 0) (fun _ => 0) (fun _ => 0)
                (fun _ => 0) (fun _ => 0) allThreads 10 7 posts59 s1 dom0) in
  loadForumHandler (Some "S") true c (fun _ => 0) (fun _ => 0) (fun _ => 0)
    (fun _ => 0) (fun _ => 0) allThreads 10 7 posts59 s1 dom0
    = Some (r.1.1, r.1.2, r.2) /\
  r.2 = Some (summaryCountsHtml c, None).
Proof.
  intros c s1 r.
  assert (loadForumHandler (Some "S") true c (fun _ => 0) (fun _ => 0) (fun _ => 0)
            (fun _ => 0) (fun _ => 0) allThreads 10 7 posts59 s1 dom0
          = Some (r.1.1, r.1.2, r.2)) as E by (vm_compute; reflexivity).
  split; [exact E|].
  destruct (loadForum_summary "S" true c (fun _ => 0) (fun _ => 0) (fun _ => 0)
              (fun _ => 0) (fun _ => 0) allThreads "fr" state59 10 7 posts59 dom0
              r.1.1 r.1.2 r.2 ltac:(lia) E) as (_ & _ & Hsm).
  rewrite Hsm. reflexivity.
Defined.
